(** * synapse.lib.cache and the bulk queue: a shallow embedding

    The development follows [synapse/lib/cache.py] method by method:
    [Cache] is the class used from one thread, [Run] sequences of calls
    on it, [Threads] several threads inside [Cache.get], [KeyCache] the
    class of that name, and [BulkQueue] the queue of
    [synapse/tests/test_queue.py].

    - A Python [dict] is a [gmap]; its iteration order is the one of
      [map_to_list] (the code never relies on a particular order).
    - [time.time()] reads the field [now] of the state; timestamps and
      [maxtime] are IEEE binary64 numbers, as Python floats are.
    - What [cache.py] imports (the event bus the cache inherits [fire]
      from, the global scheduler) and the miss callback are observed
      through a trace of the calls made to them, oldest first.  The
      callback is a function of the key.
    - A cache value is a Python object.  The code tells two objects apart
      from all others: [None] and the module-level sentinel [miss = ()].
      CPython keeps a single empty tuple, so [val is miss] holds exactly
      when [val] is an empty tuple, whoever built it. *)

From Stdlib Require Import Floats.
From Stdlib Require Strings.Byte.
From stdpp Require Import gmap strings list fin_maps.

Set Default Proof Using "Type".

(** ** Python values *)

Section Values.
Context {O : Type}.

(** [None], the empty tuple, or any other object ([o] stands for it). *)
Inductive pyval : Type :=
| PyNone
| PyEmptyTuple
| PyObj (o : O).

(** [miss = ()] (cache.py, line 9). *)
Definition miss : pyval := PyEmptyTuple.

(** [val is miss]. *)
Definition is_miss (val : pyval) : bool :=
  match val with
  | PyEmptyTuple => true
  | _ => false
  end.

(** [d.get(key, dflt)] on a dict. *)
Definition dict_get `{Countable K} (d : gmap K pyval) (key : K) (dflt : pyval) : pyval :=
  default dflt (d !! key).
End Values.

Arguments pyval : clear implicits.

(** ** class Cache *)

Module Cache.
Section Cache.
Context {K : Type} {eqK : EqDecision K} {cntK : Countable K} {O : Type}.

(** What the cache does to its collaborators. *)
Inductive action : Type :=
| Fire (name : string) (key : K) (val : pyval O)   (* self.fire(name, key=key, val=val) *)
| Insec (ival : float)                             (* self.sched.insec(ival, self._checkCacheTimes) *)
| Cancel (handle : nat)                            (* self.sched.cancel(handle) *)
| OnMiss (key : K)                                 (* self.onmiss(key) *)
| Acquire                                          (* entering [with self.cachelock] *)
| Release.                                         (* leaving it *)

(** The attributes of a Cache object, the clock and the trace. *)
Record state : Type := mkState {
  onmiss : option (K → pyval O);
  cache : gmap K (pyval O);
  lasthit : gmap K float;
  schevt : option nat;
  maxtime : option float;
  isfini : bool;
  now : float;
  trace : list action;
}.

Definition set_cache (d : gmap K (pyval O)) (s : state) : state :=
  mkState (onmiss s) d (lasthit s) (schevt s) (maxtime s) (isfini s) (now s) (trace s).
Definition set_lasthit (d : gmap K float) (s : state) : state :=
  mkState (onmiss s) (cache s) d (schevt s) (maxtime s) (isfini s) (now s) (trace s).
Definition set_onmiss (f : option (K → pyval O)) (s : state) : state :=
  mkState f (cache s) (lasthit s) (schevt s) (maxtime s) (isfini s) (now s) (trace s).
Definition set_now (t : float) (s : state) : state :=
  mkState (onmiss s) (cache s) (lasthit s) (schevt s) (maxtime s) (isfini s) t (trace s).
Definition set_isfini (b : bool) (s : state) : state :=
  mkState (onmiss s) (cache s) (lasthit s) (schevt s) (maxtime s) b (now s) (trace s).
Definition log (a : action) (s : state) : state :=
  mkState (onmiss s) (cache s) (lasthit s) (schevt s) (maxtime s) (isfini s) (now s)
          (trace s ++ [a]).

Definition fire (name : string) (key : K) (val : pyval O) : state → state :=
  log (Fire name key val).

(** [Cache.setOnMiss] (lines 49-61). *)
Definition setOnMiss (f : K → pyval O) : state → state := set_onmiss (Some f).

(** [Cache.keys] (lines 153-163). *)
Definition keys (s : state) : list K := (map_to_list (cache s)).*1.

(** [Cache.put] (lines 107-118). *)
Definition put (key : K) (val : pyval O) (s : state) : state :=
  let s := set_cache (<[key := val]> (cache s)) s in
  let s := set_lasthit (<[key := now s]> (lasthit s)) s in
  fire "cache:put" key val s.

(** [Cache.pop] (lines 120-135): [dict.pop(key, None)] on both maps. *)
Definition pop (key : K) (s : state) : pyval O * state :=
  let val := dict_get (cache s) key PyNone in
  let s := set_cache (delete key (cache s)) s in
  let s := set_lasthit (delete key (lasthit s)) s in
  let s := fire "cache:flush" key val s in
  let s := fire "cache:pop" key val s in
  (val, s).

(** What one [pop(key)] publishes in state [s]. *)
Definition pop_events (s : state) (key : K) : list action :=
  let val := dict_get (cache s) key PyNone in
  [Fire "cache:flush" key val; Fire "cache:pop" key val].

(** [Cache.flush] (lines 137-151). *)
Definition flush (key : K) (s : state) : pyval O * state :=
  let val := dict_get (cache s) key PyNone in
  (val, fire "cache:flush" key val s).

(** [Cache.get] (lines 81-105).  In a single-threaded run the lock is
    free on entry, so the [with] block is an [Acquire] and a [Release]
    in the trace; [Threads] below has the lock as shared state. *)
Definition get (key : K) (s : state) : pyval O * state :=
  let val := dict_get (cache s) key miss in
  if negb (is_miss val) then
    (val, set_lasthit (<[key := now s]> (lasthit s)) s)
  else
    match onmiss s with
    | None => (PyNone, s)
    | Some f =>
        let s := log Acquire s in
        let val := dict_get (cache s) key miss in
        let '(val, s) :=
          if is_miss val then (f key, log (OnMiss key) s) else (val, s) in
        let s := set_cache (<[key := val]> (cache s)) s in
        let s := set_lasthit (<[key := now s]> (lasthit s)) s in
        (val, log Release s)
    end.

(** [[ self.flush(key) for key in l ]] *)
Definition flush_each (l : list K) (s : state) : state :=
  foldl (λ s key, (flush key s).2) s l.

(** [[ self.pop(key) for key in l ]] *)
Definition pop_each (l : list K) (s : state) : state :=
  foldl (λ s key, (pop key s).2) s l.

(** [Cache.clear] (lines 73-79). *)
Definition clear (s : state) : state :=
  let s := flush_each (keys s) s in
  let s := set_cache ∅ s in
  set_lasthit ∅ s.

(** The keys the sweep collects:
    [[ k for (k,t) in self.lasthit.items() if t < mintime ]]. *)
Definition hits (mintime : float) (s : state) : list K :=
  (filter (λ kt, PrimFloat.ltb kt.2 mintime = true) (map_to_list (lasthit s))).*1.

(** The [finally] clause of the sweep (lines 69-71). *)
Definition reschedule (s : state) : state :=
  match maxtime s with
  | Some m => if negb (isfini s) then log (Insec (m / 10)%float) s else s
  | None => s
  end.

(** [Cache._checkCacheTimes] (lines 63-71).  With [maxtime] unset the
    subtraction on line 64 raises [TypeError] before the [try]. *)
Definition _checkCacheTimes (s : state) : option state :=
  m ← maxtime s;
  let mintime := (now s - m)%float in
  let s := pop_each (hits mintime s) s in
  Some (reschedule s).

(** [Cache._onCacheFini] (lines 174-179). *)
Definition _onCacheFini (s : state) : state :=
  let s := pop_each (keys s) s in
  match schevt s with
  | Some h => log (Cancel h) s
  | None => s
  end.

(** The two maps have the same keys. *)
Definition consistent (s : state) : Prop :=
  dom (cache s) =@{gset K} dom (lasthit s).

(** The handles passed to [self.sched.cancel] so far. *)
Definition cancelled (s : state) : list nat :=
  omap (λ a, match a with Cancel h => Some h | _ => None end) (trace s).

(** The delays passed to [self.sched.insec] so far. *)
Definition scheduled (s : state) : list float :=
  omap (λ a, match a with Insec ival => Some ival | _ => None end) (trace s).

(** [Cache.__init__] (lines 31-47), at clock value [t]. *)
Definition __init__ (maxtime : option float) (onmiss : option (K → pyval O)) (t : float)
  : option state :=
  let s := mkState onmiss ∅ ∅ None maxtime false t [] in
  match maxtime with
  | Some _ => _checkCacheTimes s
  | None => Some s
  end.

(** [Cache.values] (lines 165-166). *)
Definition values (s : state) : list (pyval O) := (map_to_list (cache s)).*2.

(** [Cache.__len__] (lines 168-169). *)
Definition __len__ (s : state) : nat := size (cache s).

(** [Cache.__iter__] (lines 171-172): the list of the items. *)
Definition __iter__ (s : state) : list (K * pyval O) := map_to_list (cache s).

(** The events published so far, oldest first. *)
Definition fired (s : state) : list (string * K * pyval O) :=
  omap (λ a, match a with Fire name key val => Some (name, key, val) | _ => None end)
       (trace s).

(** The keys the resolver was called on so far, oldest first. *)
Definition resolved (s : state) : list K :=
  omap (λ a, match a with OnMiss key => Some key | _ => None end) (trace s).

(** Nothing that is cached for a resolved key can be taken for a miss. *)
Definition caching (s : state) : Prop :=
  (∀ f key, onmiss s = Some f → is_miss (f key) = false) ∧
  NoDup (resolved s) ∧
  ∀ key, key ∈ resolved s → ∃ val, cache s !! key = Some val ∧ is_miss val = false.

End Cache.
End Cache.

(** ** Runs of a cache used from one thread *)

Module Run.
Section Run.
Context {K : Type} {eqK : EqDecision K} {cntK : Countable K} {O : Type}.
Import Cache.

(** Modelled from the spec: [EventBus.fini] ([synapse/eventbus.py] is not
    among the sources).  Shutdown marks the bus ([isfini]) and runs the
    handler that [__init__] registered with [onfini] (line 41). *)
Definition fini (s : @state K _ _ O) : state :=
  _onCacheFini (set_isfini true s).

(** One call made on the cache, or the clock moving on. *)
Inductive op : Type :=
| Put (key : K) (val : pyval O)
| Get (key : K)
| Pop (key : K)
| Flush (key : K)
| Clear
| SetOnMiss (f : K → pyval O)
| Sweep                            (* the scheduler runs [_checkCacheTimes] *)
| Fini
| Tick (t : float).                (* [time.time()] now returns [t] *)

Definition exec (o : op) (s : state) : option state :=
  match o with
  | Put key val => Some (put key val s)
  | Get key => Some (get key s).2
  | Pop key => Some (pop key s).2
  | Flush key => Some (flush key s).2
  | Clear => Some (clear s)
  | SetOnMiss f => Some (setOnMiss f s)
  | Sweep => _checkCacheTimes s
  | Fini => Some (fini s)
  | Tick t => Some (set_now t s)
  end.

Fixpoint run (ops : list op) (s : state) : option state :=
  match ops with
  | [] => Some s
  | o :: ops => s' ← exec o s; run ops s'
  end.

(** Calls that remove no entry, store no empty tuple and set no resolver
    that returns one. *)
Definition keeps (o : op) : Prop :=
  match o with
  | Put _ val => is_miss val = false
  | Get _ | Flush _ | Tick _ => True
  | SetOnMiss f => ∀ key, is_miss (f key) = false
  | Pop _ | Clear | Sweep | Fini => False
  end.

End Run.
End Run.

(** ** Several threads inside [Cache.get] *)

Module Threads.
Section Threads.
Context {K : Type} {eqK : EqDecision K} {cntK : Countable K} {O : Type}.

(** Where a thread stands in [Cache.get]: the line it executes next,
    with its local [val] once it has one. *)
Inductive pc : Type :=
| L90                       (* val = self.cache.get(key,miss) *)
| L91 (val : pyval O)       (* if val is not miss: *)
| L92 (val : pyval O)       (* self.lasthit[key] = time.time() *)
| L93 (val : pyval O)       (* return val *)
| L95                       (* if self.onmiss == None: return None *)
| L98                       (* with self.cachelock: *)
| L99                       (* val = self.cache.get(key,miss) *)
| L100 (val : pyval O)      (* if val is miss: *)
| L101                      (* val = self.onmiss(key): the call *)
| L101_ret (val : pyval O)  (* ... the resolver runs and returns val *)
| L103 (val : pyval O)      (* self.cache[key] = val *)
| L104 (val : pyval O)      (* self.lasthit[key] = time.time() *)
| L105 (val : pyval O)      (* return val, leaving the with block *)
| Done (ret : pyval O).

(** The attributes the threads share; [calls] counts the resolver
    invocations. *)
Record shared : Type := mkShared {
  onmiss : option (K → pyval O);
  cache : gmap K (pyval O);
  lasthit : gmap K float;
  cachelock : bool;
  now : float;
  calls : nat;
}.

Record config : Type := mkConfig {
  mem : shared;
  threads : list pc;
}.

(** One statement of [get(key)] by a thread at [p].  [None]: the thread
    cannot move (it has returned, or it waits for the lock).  Line 101 is
    only reached with a resolver set: line 95 has returned otherwise. *)
Definition step_thread (key : K) (p : pc) (m : shared) : option (pc * shared) :=
  match p with
  | L90 => Some (L91 (dict_get (cache m) key miss), m)
  | L91 val => Some (if negb (is_miss val) then L92 val else L95, m)
  | L92 val =>
      Some (L93 val,
            mkShared (onmiss m) (cache m) (<[key := now m]> (lasthit m))
                     (cachelock m) (now m) (calls m))
  | L93 val => Some (Done val, m)
  | L95 => Some (match onmiss m with None => Done PyNone | Some _ => L98 end, m)
  | L98 =>
      if cachelock m then None
      else Some (L99, mkShared (onmiss m) (cache m) (lasthit m) true (now m) (calls m))
  | L99 => Some (L100 (dict_get (cache m) key miss), m)
  | L100 val => Some (if is_miss val then L101 else L103 val, m)
  | L101 =>
      f ← onmiss m;
      Some (L101_ret (f key),
            mkShared (onmiss m) (cache m) (lasthit m) (cachelock m) (now m) (S (calls m)))
  | L101_ret val => Some (L103 val, m)
  | L103 val =>
      Some (L104 val,
            mkShared (onmiss m) (<[key := val]> (cache m)) (lasthit m)
                     (cachelock m) (now m) (calls m))
  | L104 val =>
      Some (L105 val,
            mkShared (onmiss m) (cache m) (<[key := now m]> (lasthit m))
                     (cachelock m) (now m) (calls m))
  | L105 val =>
      Some (Done val,
            mkShared (onmiss m) (cache m) (lasthit m) false (now m) (calls m))
  | Done _ => None
  end.

(** Thread [i] takes its next step. *)
Definition step (key : K) (i : nat) (c : config) : option config :=
  p ← threads c !! i;
  '(p', m') ← step_thread key p (mem c);
  Some (mkConfig m' (<[i := p']> (threads c))).

(** A schedule names the thread to run next; a thread that cannot move
    is skipped. *)
Definition run (key : K) (sched : list nat) (c : config) : config :=
  foldl (λ c i, default c (step key i c)) c sched.

(** [n] threads enter [get(key)]. *)
Definition start (n : nat) (m : shared) : config := mkConfig m (replicate n L90).

(** Inside the [with self.cachelock] block. *)
Definition critical (p : pc) : bool :=
  match p with
  | L99 | L100 _ | L101 | L101_ret _ | L103 _ | L104 _ | L105 _ => true
  | _ => false
  end.

(** Inside the resolver. *)
Definition in_resolver (p : pc) : bool :=
  match p with
  | L101_ret _ => true
  | _ => false
  end.

Definition returned (p : pc) : option (pyval O) :=
  match p with
  | Done ret => Some ret
  | _ => None
  end.

(** Every thread has returned. *)
Definition finished (c : config) : Prop :=
  Forall (λ p, is_Some (returned p)) (threads c).

(** Statements a thread has left before it returns, at most. *)
Definition rank (p : pc) : nat :=
  match p with
  | L90 => 11 | L91 _ => 10 | L95 => 9 | L98 => 8 | L99 => 7 | L100 _ => 6
  | L101 => 5 | L101_ret _ => 4 | L103 _ => 3 | L104 _ => 2 | L105 _ => 1
  | L92 _ => 2 | L93 _ => 1 | Done _ => 0
  end.

Definition remaining (c : config) : nat := sum_list (rank <$> threads c).

(** How many entries of a schedule moved a thread. *)
Fixpoint moves (key : K) (sched : list nat) (c : config) : nat :=
  match sched with
  | [] => 0
  | i :: sched =>
      match step key i c with
      | Some c' => S (moves key sched c')
      | None => moves key sched c
      end
  end.

(** The lock is held exactly while one thread, [holder], is inside the
    block. *)
Definition lock_ok (c : config) : Prop :=
  ∃ holder : option nat,
    (∀ i p, threads c !! i = Some p → critical p = true ↔ holder = Some i) ∧
    (cachelock (mem c) = true ↔ is_Some holder).

(** The two maps have the same keys. *)
Definition same_keys (m : shared) : Prop :=
  dom (cache m) =@{gset K} dom (lasthit m).

(** Line 103 is done and line 104 is not. *)
Definition before_stamp (p : pc) : bool :=
  match p with
  | L104 _ => true
  | _ => false
  end.

(** A thread about to write [lasthit[key]] has seen [key] in the cache. *)
Definition knows_key (key : K) (m : shared) (p : pc) : Prop :=
  match p with
  | L91 val => is_miss val = false → is_Some (cache m !! key)
  | L92 _ | L104 _ => is_Some (cache m !! key)
  | _ => True
  end.

(** The maps have the same keys, except that [key] may be missing from
    [lasthit] while a thread stands between lines 103 and 104. *)
Definition maps_ok (key : K) (c : config) : Prop :=
  (∀ i p, threads c !! i = Some p → knows_key key (mem c) p) ∧
  (same_keys (mem c) ∨
   (∃ i p, threads c !! i = Some p ∧ before_stamp p = true) ∧
   dom (cache (mem c)) =@{gset K} {[key]} ∪ dom (lasthit (mem c))).

(** *** The invariant of [n] threads resolving [key] with [f] *)

(** The key has not been stored yet. *)
Definition absent (key : K) (m : shared) : Prop := cache m !! key = None.

(** The resolver ran once and its result is in the cache. *)
Definition stored (key : K) (f : K → pyval O) (m : shared) : Prop :=
  cache m !! key = Some (f key) ∧ calls m = 1.

(** Nothing is in flight: the resolver has not run, or its result is
    stored. *)
Definition quiet (key : K) (f : K → pyval O) (m : shared) : Prop :=
  (absent key m ∧ calls m = 0) ∨ stored key f m.

(** What a thread outside the [with] block knows. *)
Definition outside_ok (key : K) (f : K → pyval O) (m : shared) (p : pc) : Prop :=
  match p with
  | L90 | L95 | L98 => True
  | L91 val => is_miss val = true ∨ (val = f key ∧ stored key f m)
  | L92 val | L93 val | Done val => val = f key ∧ stored key f m
  | _ => False
  end.

(** What the thread inside the [with] block knows. *)
Definition inside_ok (key : K) (f : K → pyval O) (m : shared) (p : pc) : Prop :=
  match p with
  | L99 => quiet key f m
  | L100 val =>
      (is_miss val = true ∧ absent key m ∧ calls m = 0) ∨ (val = f key ∧ stored key f m)
  | L101 => absent key m ∧ calls m = 0
  | L101_ret val => val = f key ∧ absent key m ∧ calls m = 1
  | L103 val =>
      val = f key ∧ calls m = 1 ∧ (absent key m ∨ cache m !! key = Some (f key))
  | L104 val | L105 val => val = f key ∧ stored key f m
  | _ => False
  end.

(** The lock is held by thread [holder], the only one inside the block,
    or by none. *)
Definition invariant (key : K) (f : K → pyval O) (c : config) : Prop :=
  onmiss (mem c) = Some f ∧
  ∃ holder : option nat,
    (∀ i p, threads c !! i = Some p →
            if decide (holder = Some i) then inside_ok key f (mem c) p
            else outside_ok key f (mem c) p) ∧
    match holder with
    | None => cachelock (mem c) = false ∧ quiet key f (mem c)
    | Some i => cachelock (mem c) = true ∧ i < length (threads c)
    end.

(** The attributes of a cache that no thread is using, as the threads
    will share them. *)
Definition shared_of (s : @Cache.state K _ _ O) : shared :=
  mkShared (Cache.onmiss s) (Cache.cache s) (Cache.lasthit s) false (Cache.now s) 0.
End Threads.
End Threads.

(** ** class KeyCache *)

Module KeyCache.
Section KeyCache.
Context {K : Type} {eqK : EqDecision K} {cntK : Countable K} {O : Type}.

(** A [defaultdict] with its [lookmeth]; [looked] lists the keys the
    lookup was invoked on, oldest first. *)
Record state : Type := mkState {
  lookmeth : K → pyval O;
  dict : gmap K (pyval O);
  looked : list K;
}.

(** [KeyCache.__init__] (lines 302-304). *)
Definition __init__ (lookmeth : K → pyval O) : state := mkState lookmeth ∅ [].

(** [self[key] = valu]. *)
Definition __setitem__ (key : K) (valu : pyval O) (s : state) : state :=
  mkState (lookmeth s) (<[key := valu]> (dict s)) (looked s).

(** [KeyCache.__missing__] (lines 306-309). *)
Definition __missing__ (key : K) (s : state) : pyval O * state :=
  let valu := lookmeth s key in
  let s := mkState (lookmeth s) (dict s) (looked s ++ [key]) in
  let s := __setitem__ key valu s in
  (valu, s).

(** [self[key]]: [dict.__getitem__] calls [__missing__] for a key that
    is not in the dict. *)
Definition __getitem__ (key : K) (s : state) : pyval O * state :=
  match dict s !! key with
  | Some valu => (valu, s)
  | None => __missing__ key s
  end.

(** [KeyCache.get] (lines 314-315). *)
Definition get (key : K) (s : state) : pyval O * state := __getitem__ key s.

(** [KeyCache.put] (lines 317-318). *)
Definition put (key : K) (val : pyval O) (s : state) : state := __setitem__ key val s.

(** [KeyCache.pop] (lines 311-312). *)
Definition pop (key : K) (s : state) : pyval O * state :=
  (dict_get (dict s) key PyNone, mkState (lookmeth s) (delete key (dict s)) (looked s)).

(** The calls made on a [KeyCache]. *)
Inductive access : Type :=
| Get (key : K)                    (* cache.get(key) *)
| Index (key : K)                  (* cache[key] *)
| Put (key : K) (val : pyval O)    (* cache.put(key, val) *)
| Pop (key : K).                   (* cache.pop(key) *)

Definition exec (a : access) (s : state) : state :=
  match a with
  | Get key => (get key s).2
  | Index key => (__getitem__ key s).2
  | Put key val => put key val s
  | Pop key => (pop key s).2
  end.

Definition run (l : list access) (s : state) : state := foldl (λ s a, exec a s) s l.

(** How often the lookup ran for [key]. *)
Definition lookups (key : K) (s : state) : nat :=
  length (filter (λ k, k = key) (looked s)).

(** The lookup ran at most once for [key], and if it ran, [key] is in
    the dict. *)
Definition looked_once (key : K) (s : state) : Prop :=
  lookups key s ≤ 1 ∧ (0 < lookups key s → is_Some (dict s !! key)).
End KeyCache.
End KeyCache.

(** ** BulkQueue *)

Module BulkQueue.
Section BulkQueue.
Context {A : Type}.

(** Modelled from the spec: the data of a [BulkQueue]
    ([synapse/lib/queue.py] is not part of the sources; only its test
    is).  [pending] is the FIFO sequence, oldest first. *)
Record state : Type := mkState {
  pending : list A;
  lastConsumedAt : float;
  closed : bool;
}.

(** Modelled from the spec: a queue is created open and empty, and
    [lastConsumedAt] starts at the time of construction. *)
Definition __init__ (t : float) : state := mkState [] t false.

(** Modelled from the spec: [extend(items)] appends the sequence as one
    batch; once closed, enqueues are no-ops. *)
Definition extend (items : list A) (q : state) : state :=
  if closed q then q
  else mkState (pending q ++ items) (lastConsumedAt q) (closed q).

(** Modelled from the spec: [put(item)] is a 1-item bulk insert. *)
Definition put (item : A) (q : state) : state := extend [item] q.

(** Modelled from the spec: [get] at time [t].  With items pending it
    drains and returns all of them and updates [lastConsumedAt]; with
    none (the wait ends by timeout or closure) the result is empty. *)
Definition get (t : float) (q : state) : list A * state :=
  match pending q with
  | [] => ([], q)
  | items => (items, mkState [] t (closed q))
  end.

(** Modelled from the spec: [hyber(sink)] writes the current contents of
    [pending] to the sink and leaves the queue as it is.  The sink is
    the list of dumps written so far. *)
Definition hyber (sink : list (list A)) (q : state) : list (list A) * state :=
  (sink ++ [pending q], q).

(** Modelled from the spec: [abandoned(timeout)] at time [t] is
    [now - lastConsumedAt > timeoutSeconds]. *)
Definition abandoned (timeout t : float) (q : state) : bool :=
  PrimFloat.ltb timeout (t - lastConsumedAt q)%float.

(** Modelled from the spec: shutdown closes the queue. *)
Definition fini (q : state) : state := mkState (pending q) (lastConsumedAt q) true.

(** The enqueue calls. *)
Inductive enqueue : Type :=
| Put (item : A)
| Extend (items : list A).

Definition exec (e : enqueue) (q : state) : state :=
  match e with
  | Put item => put item q
  | Extend items => extend items q
  end.

Definition run (l : list enqueue) (q : state) : state := foldl (λ q e, exec e q) q l.

(** The items of a sequence of enqueue calls, in call order. *)
Definition enqueued (l : list enqueue) : list A :=
  l ≫= λ e, match e with Put item => [item] | Extend items => items end.
End BulkQueue.
End BulkQueue.

(** ** Exceptions *)

(** A call returns a value or raises. *)
Inductive result (E A : Type) : Type :=
| Ok (a : A)
| Raise (e : E).
Arguments Ok {E A} a.
Arguments Raise {E A} e.

(** ** class TufoCache and class TufoPropCache

    The cortex ([core]) is not among the sources; the classes use three of
    its methods.  A tufo is the tuple [(iden, props)]; [getTufoById] and
    [getTufoByProp] return a tufo or [None].  Idens and property values
    are both cache keys. *)

Module TufoCache.
Section TufoCache.
Context {K : Type} {eqK : EqDecision K} {cntK : Countable K} {P : Type}.

Definition tufo : Type := K * gmap string P.

(** The two lookups of the cortex. *)
Record core : Type := mkCore {
  getTufoById : K → option tufo;
  getTufoByProp : string → K → option tufo;
}.

(** What a lookup of the cortex returns, as a Python object. *)
Definition of_tufo (r : option tufo) : pyval tufo :=
  match r with
  | Some tufo0 => PyObj tufo0
  | None => PyNone
  end.

(** [TufoCache.__init__] (lines 183-187). *)
Definition __init__ (c : core) (maxtime : option float) (t : float)
  : option (@Cache.state K _ _ tufo) :=
  s ← Cache.__init__ maxtime None t;
  Some (Cache.setOnMiss (λ iden, of_tufo (getTufoById c iden)) s).


Inductive exn : Type :=
| TypeError      (* None[1] *)
| IndexError.    (* ()[1] *)

End TufoCache.
End TufoCache.

Module TufoPropCache.
Section TufoPropCache.
Context {K : Type} {eqK : EqDecision K} {cntK : Countable K} {P : Type}.
Import TufoCache.

(** [TufoPropCache.getTufoByValu] (lines 206-207). *)
Definition getTufoByValu (c : @core K P) (prop : string) (valu : K) : pyval tufo :=
  of_tufo (getTufoByProp c prop valu).

(** [TufoPropCache.__init__] (lines 201-204). *)
Definition __init__ (c : @core K P) (prop : string) (maxtime : option float) (t : float)
  : option (@Cache.state K _ _ tufo) :=
  s ← TufoCache.__init__ c maxtime t;
  Some (Cache.setOnMiss (getTufoByValu c prop) s).
End TufoPropCache.
End TufoPropCache.

(** ** class OnDem *)

Module OnDem.
Section OnDem.
Context {K : Type} {eqK : EqDecision K} {cntK : Countable K} {O : Type}.

(** An attribute that [dir(self)] lists: the name [keymeth] tagged it
    with, if any, and what calling it returns. *)
Record attr : Type := mkAttr {
  _keycache_name : option K;
  call : unit → pyval O;
}.

(** The dict itself, [_key_funcs], and the names whose function was
    called, oldest first. *)
Record state : Type := mkState {
  _key_funcs : gmap K (unit → pyval O);
  items : gmap K (pyval O);
  called : list K;
}.

Inductive exn : Type :=
| KeyError (name : K).

(** [OnDem.__init__] (lines 236-248); [attrs] are the attributes in the
    order of [dir(self)]. *)
Definition __init__ (attrs : list attr) : state :=
  mkState
    (foldl (λ funcs a,
              match _keycache_name a with
              | None => funcs
              | Some keyn => <[keyn := call a]> funcs
              end) ∅ attrs)
    ∅ [].

(** [OnDem.__missing__] (lines 250-257). *)
Definition __missing__ (name : K) (s : state) : result exn (pyval O * state) :=
  match _key_funcs s !! name with
  | None => Raise (KeyError name)
  | Some func =>
      let valu := func () in
      Ok (valu, mkState (_key_funcs s) (<[name := valu]> (items s)) (called s ++ [name]))
  end.

(** [self[name]]: [dict.__getitem__] calls [__missing__] for a name that
    is not in the dict. *)
Definition __getitem__ (name : K) (s : state) : result exn (pyval O * state) :=
  match items s !! name with
  | Some valu => Ok (valu, s)
  | None => __missing__ name s
  end.

(** [OnDem.get] (lines 259-268). *)
Definition get (name : K) (s : state) : result exn (pyval O * state) :=
  __getitem__ name s.

(** [OnDem.add] (lines 270-289): [keyfunc] calls [func] on the arguments given to [add]. *)
Definition add {A : Type} (name : K) (func : A → pyval O) (args : A) (s : state) : state :=
  mkState (<[name := λ _, func args]> (_key_funcs s)) (items s) (called s).

(** The calls made on an [OnDem]. *)
Inductive access : Type :=
| Get (name : K)
| Add (name : K) (func : unit → pyval O).

(** A [get] that raises leaves the object as it was. *)
Definition exec (a : access) (s : state) : state :=
  match a with
  | Get name =>
      match get name s with
      | Ok (_, s') => s'
      | Raise _ => s
      end
  | Add name func => add name func () s
  end.

Definition run (l : list access) (s : state) : state := foldl (λ s a, exec a s) s l.

(** How often the function of [name] was called. *)
Definition calls (name : K) (s : state) : nat :=
  length (filter (λ k, k = name) (called s)).
End OnDem.
End OnDem.

(** ** synapse.compat: integers and bytes

    Both branches of the module are modelled: the one for Python 3
    ([int.to_bytes], [int.from_bytes]) and the one for Python 2
    ([struct.pack], [struct.unpack] with the formats of [fmts]). *)

Module compat.
Local Open Scope Z_scope.

Inductive exn : Type :=
| ValueError       (* int.to_bytes: negative length *)
| OverflowError    (* int.to_bytes: negative, or too big for the length *)
| StructError      (* struct.error: out of the range of the format *)
| Unsupported.     (* Exception('... size not supported') *)

(** The byte of value [z], for [0 <= z < 256]. *)
Definition byte_of_Z (z : Z) : Byte.byte :=
  default Byte.x00 (Byte.of_N (Z.to_N z)).

Definition Z_of_byte (b : Byte.byte) : Z := Z.of_N (Byte.to_N b).

(** The [size] low bytes of [valu], least significant first. *)
Fixpoint little_endian (size : nat) (valu : Z) : list Byte.byte :=
  match size with
  | O => []
  | S size => byte_of_Z (valu mod 256) :: little_endian size (valu / 256)
  end.

(** The number a little-endian byte string stands for. *)
Definition from_little_endian (byts : list Byte.byte) : Z :=
  foldr (λ b acc, Z_of_byte b + 256 * acc) 0 byts.

Module Py3.

(** [to_bytes] (lines 82-83): [valu.to_bytes(size, byteorder='little')]. *)
Definition to_bytes (valu size : Z) : result exn (list Byte.byte) :=
  if size <? 0 then Raise ValueError
  else if valu <? 0 then Raise OverflowError
  else if 256 ^ size <=? valu then Raise OverflowError
  else Ok (little_endian (Z.to_nat size) valu).

(** [to_int] (lines 85-86): [int.from_bytes(byts, 'little')]. *)
Definition to_int (byts : list Byte.byte) : Z := from_little_endian byts.

(** [iterbytes] (lines 97-98). *)
Definition iterbytes (byts : list Byte.byte) : list Z := Z_of_byte <$> byts.

End Py3.

Module Py2.

(** The formats of [fmts] (lines 30-35): unsigned, little-endian. *)
Inductive fmt : Type := B | H | I | Q.

Definition calcsize (f : fmt) : nat :=
  match f with
  | B => 1%nat
  | H => 2%nat
  | I => 4%nat
  | Q => 8%nat
  end.

(** [fmts.get(size)]. *)
Definition fmts (size : Z) : option fmt :=
  if size =? 1 then Some B
  else if size =? 2 then Some H
  else if size =? 4 then Some I
  else if size =? 8 then Some Q
  else None.

(** [struct.pack(fmt, valu)]. *)
Definition struct_pack (f : fmt) (valu : Z) : result exn (list Byte.byte) :=
  if (0 <=? valu) && (valu <? 256 ^ Z.of_nat (calcsize f))
  then Ok (little_endian (calcsize f) valu)
  else Raise StructError.

(** [struct.unpack(fmt, byts)[0]]. *)
Definition struct_unpack (f : fmt) (byts : list Byte.byte) : result exn Z :=
  if decide (length byts = calcsize f) then Ok (from_little_endian byts)
  else Raise StructError.

(** [to_bytes] (lines 55-61). *)
Definition to_bytes (valu size : Z) : result exn (list Byte.byte) :=
  match fmts size with
  | None => Raise Unsupported
  | Some f => struct_pack f valu
  end.

(** [to_int] (lines 63-68). *)
Definition to_int (byts : list Byte.byte) : result exn Z :=
  match fmts (Z.of_nat (length byts)) with
  | None => Raise Unsupported
  | Some f => struct_unpack f byts
  end.

(** [iterbytes] (lines 48-50): [ord(c)] for each [c]. *)
Definition iterbytes (byts : list Byte.byte) : list Z := Z_of_byte <$> byts.

End Py2.
End compat.

(** ** Concrete caches and queues

    Keys are strings and the objects stored are integers. *)

Module Example.
Import Cache.

(** [Cache()] at clock value 1000. *)
Definition plain : @state string _ _ Z :=
  mkState None ∅ ∅ None None false 1000%float [].

(** [onmiss = lambda key: 10] *)
Definition ten : string → pyval Z := λ _, PyObj 10%Z.

(** [onmiss = lambda key: ()] *)
Definition nothing : string → pyval Z := λ _, PyEmptyTuple.

(** [Cache(onmiss=ten)] *)
Definition resolving : @state string _ _ Z := setOnMiss ten plain.

(** A cache with [maxtime=60] holding an entry last hit at 900 and one
    last hit at 990, at clock value 1000. *)
Definition aged : @state string _ _ Z :=
  mkState None
          (<["old" := PyObj 1%Z]> (<["new" := PyObj 2%Z]> ∅))
          (<["old" := 900%float]> (<["new" := 990%float]> ∅))
          None (Some 60%float) false 1000%float [].

(** [cache = Cache(maxtime=60); cache.put('woot', 10)] *)
Definition timed : option (@state string _ _ Z) :=
  s ← __init__ (Some 60%float) None 1000%float;
  Some (put "woot" (PyObj 10%Z) s).

(** [cache = Cache(maxtime=60); cache.put('woot', 10); cache.fini()] *)
Definition timed_then_fini : option (@state string _ _ Z) :=
  s ← __init__ (Some 60%float) None 1000%float;
  Run.run [Run.Put "woot" (PyObj 10%Z); Run.Fini] s.

(** A session on [Cache(maxtime=60)]: a put and a hit, a miss resolved
    by [ten], a pop, and a sweep thirty seconds later. *)
Definition session : list (@Run.op string Z) :=
  [Run.Put "woot" (PyObj 10%Z); Run.Get "woot"; Run.SetOnMiss ten; Run.Get "other";
   Run.Pop "woot"; Run.Tick 1030%float; Run.Sweep].

(** The shared attributes of [Cache(onmiss=f)] before any call. *)
Definition fresh_shared (f : string → pyval Z) : @Threads.shared string _ _ Z :=
  Threads.mkShared (Some f) ∅ ∅ false 1000%float 0.

(** Two threads taking turns, twenty times each. *)
Definition turns : list nat := concat (replicate 20 [0; 1]).

(** [KeyCache(lambda key: None)] *)
Definition none_cache : @KeyCache.state string _ _ Z :=
  KeyCache.__init__ (λ _, PyNone).

(** [q = BulkQueue(); q.put(1); q.extend((2,3))] (test_queue_bulk) *)
Definition bulk : @BulkQueue.state Z :=
  BulkQueue.run [BulkQueue.Put 1%Z; BulkQueue.Extend [2%Z; 3%Z]]
                (BulkQueue.__init__ 0%float).

(** [q = BulkQueue(); q.extend(['foo','bar'])] (test_queue_hybernate) *)
Definition foobar : @BulkQueue.state string :=
  BulkQueue.extend ["foo"; "bar"] (BulkQueue.__init__ 0%float).

(** A session that stores nothing: gets, a pop, a sweep once the entries
    have aged, a clear. *)
Definition reading : list (@Run.op string Z) :=
  [Run.Get "a"; Run.Get "a"; Run.Pop "a"; Run.Get "b"; Run.Tick 1100%float;
   Run.Sweep; Run.Get "a"; Run.Clear].

(** A session that removes nothing. *)
Definition keeping : list (@Run.op string Z) :=
  [Run.Get "a"; Run.Put "b" (PyObj 2%Z); Run.Get "b"; Run.Get "a"; Run.Flush "a";
   Run.Tick 1100%float; Run.Get "c"; Run.Get "a"].

(** A cortex with one tufo, [('a1', {'name': 'visi'})]. *)
Definition cortex : @TufoCache.core string string :=
  TufoCache.mkCore
    (λ iden, if String.eqb iden "a1" then Some ("a1", {["name" := "visi"]}) else None)
    (λ prop valu, if (String.eqb prop "name" && String.eqb valu "visi")%bool
                  then Some ("a1", {["name" := "visi"]}) else None).

(** Lookups of a tufo the cortex has and of one it lacks, and a pop. *)
Definition tufo_reading : list (@Run.op string (@TufoCache.tufo string string)) :=
  [Run.Get "a1"; Run.Get "zz"; Run.Pop "a1"].

(** The attributes of [class Woot(OnDem)] with [@keymeth('foo')] on a
    method that returns 1, and an untagged method. *)
Definition woot : list (@OnDem.attr string Z) :=
  [OnDem.mkAttr (Some "foo") (λ _, PyObj 1%Z); OnDem.mkAttr None (λ _, PyObj 2%Z)].

(** [od.add('foo', lambda: 5); od.get('foo'); od.add('baz', lambda: 3)] *)
Definition later : list (@OnDem.access string Z) :=
  [OnDem.Add "foo" (λ _, PyObj 5%Z); OnDem.Get "foo"; OnDem.Add "baz" (λ _, PyObj 3%Z)].

(** [cache.get('a'); cache.pop('a'); cache['b']] *)
Definition lookups_only : list (@KeyCache.access string Z) :=
  [KeyCache.Get "a"; KeyCache.Pop "a"; KeyCache.Index "b"].
End Example.

(** * Properties of [Cache] *)

Section CacheFacts.
Context {K : Type} {eqK : EqDecision K} {cntK : Countable K} {O : Type}.
Import Cache.
Implicit Types (s : @state K _ _ O) (key k : K) (l : list K) (val v : pyval O).

Lemma dict_get_delete_ne (d : gmap K (pyval O)) k key dflt :
  k ≠ key → dict_get (delete k d) key dflt = dict_get d key dflt.
Proof. intros. unfold dict_get. by rewrite lookup_delete_ne. Qed.

Lemma pop_each_nil s : pop_each [] s = s.
Proof. reflexivity. Qed.

Lemma pop_each_cons k l s : pop_each (k :: l) s = pop_each l (pop k s).2.
Proof. reflexivity. Qed.

Lemma pop_each_frame l s :
  onmiss (pop_each l s) = onmiss s ∧ schevt (pop_each l s) = schevt s ∧
  maxtime (pop_each l s) = maxtime s ∧ isfini (pop_each l s) = isfini s ∧
  now (pop_each l s) = now s.
Proof.
  revert s. induction l as [|k l IH]; intros s; [done|].
  rewrite pop_each_cons.
  destruct (IH (pop k s).2) as (-> & -> & -> & -> & ->). done.
Qed.

Lemma pop_each_cache l s key :
  cache (pop_each l s) !! key = if decide (key ∈ l) then None else cache s !! key.
Proof.
  revert s. induction l as [|k l IH]; intros s.
  - rewrite pop_each_nil. by rewrite decide_False by set_solver.
  - rewrite pop_each_cons, IH. cbn [pop snd cache lasthit fire log set_cache set_lasthit].
    destruct (decide (key = k)) as [->|Hne].
    + rewrite lookup_delete_eq. rewrite (decide_True (P := k ∈ k :: l)) by set_solver.
      by case_decide.
    + rewrite lookup_delete_ne by done.
      assert (key ∈ k :: l ↔ key ∈ l) as Hiff by (rewrite elem_of_cons; tauto).
      repeat case_decide; tauto.
Qed.

Lemma pop_each_lasthit l s key :
  lasthit (pop_each l s) !! key = if decide (key ∈ l) then None else lasthit s !! key.
Proof.
  revert s. induction l as [|k l IH]; intros s.
  - rewrite pop_each_nil. by rewrite decide_False by set_solver.
  - rewrite pop_each_cons, IH. cbn [pop snd cache lasthit fire log set_cache set_lasthit].
    destruct (decide (key = k)) as [->|Hne].
    + rewrite lookup_delete_eq. rewrite (decide_True (P := k ∈ k :: l)) by set_solver.
      by case_decide.
    + rewrite lookup_delete_ne by done.
      assert (key ∈ k :: l ↔ key ∈ l) as Hiff by (rewrite elem_of_cons; tauto).
      repeat case_decide; tauto.
Qed.

Lemma pop_each_trace l s :
  NoDup l → trace (pop_each l s) = trace s ++ (l ≫= pop_events s).
Proof.
  revert s. induction l as [|k l IH]; intros s Hnd.
  - simpl. by rewrite app_nil_r.
  - apply NoDup_cons in Hnd as [Hk Hnd].
    rewrite pop_each_cons, IH by done. simpl. rewrite <- !app_assoc. simpl. do 3 f_equal.
    apply Forall_bind_ext, Forall_forall. intros key Hkey.
    unfold pop_events. simpl. rewrite dict_get_delete_ne; [done|].
    intros ->. done.
Qed.

Lemma hits_spec mintime s key :
  key ∈ hits mintime s ↔
  ∃ t, lasthit s !! key = Some t ∧ PrimFloat.ltb t mintime = true.
Proof.
  unfold hits. rewrite list_elem_of_fmap. split.
  - intros [[k t] [-> [Hlt Hin]%list_elem_of_filter]].
    apply elem_of_map_to_list in Hin. eauto.
  - intros (t & Hin & Hlt). exists (key, t). split; [done|].
    apply list_elem_of_filter. split; [done|]. by apply elem_of_map_to_list.
Qed.

Lemma NoDup_hits mintime s : NoDup (hits mintime s).
Proof.
  unfold hits. eapply NoDup_fmap_fst.
  - intros k t1 t2 [_ H1%elem_of_map_to_list]%list_elem_of_filter
      [_ H2%elem_of_map_to_list]%list_elem_of_filter. congruence.
  - apply NoDup_filter, NoDup_map_to_list.
Qed.

Lemma NoDup_keys s : NoDup (keys s).
Proof. apply NoDup_fst_map_to_list. Qed.

Lemma keys_spec s key : key ∈ keys s ↔ is_Some (cache s !! key).
Proof.
  unfold keys. rewrite list_elem_of_fmap. split.
  - intros [[k v] [-> Hin%elem_of_map_to_list]]. eauto.
  - intros [v Hv]. exists (key, v). split; [done|]. by apply elem_of_map_to_list.
Qed.
End CacheFacts.

Section CacheOperations.
Context {K : Type} {eqK : EqDecision K} {cntK : Countable K} {O : Type}.
Import Cache.
Implicit Types (s : @state K _ _ O) (key k : K) (l : list K) (val v : pyval O).

(** A value that is not the sentinel is read back by [get], whatever
    the resolver. *)
Lemma put_get_roundtrip key val s :
  is_miss val = false → (get key (put key val s)).1 = val.
Proof.
  intros Hval. unfold get, put, dict_get. simpl.
  rewrite lookup_insert_eq. simpl. by rewrite Hval.
Qed.

(** An empty tuple that was [put] is taken for a miss by [get]. *)
Lemma put_miss_get key s :
  (get key (put key miss s)).1 =
  match onmiss s with Some f => f key | None => PyNone end.
Proof.
  unfold get, put, dict_get. simpl. rewrite lookup_insert_eq. simpl.
  by destruct (onmiss s).
Qed.



(** C1 (amended): [get] of an absent key with a resolver enters the
    lock, calls the resolver once, stores its result under the key
    (whatever the result is), stamps [lasthit[key]] with the current
    time, leaves the lock and returns the result; the trace grows by
    these three actions only, so no event is published. *)
Theorem get_miss_resolves key s f :
  cache s !! key = None → onmiss s = Some f →
  get key s =
  (f key,
   mkState (Some f) (<[key := f key]> (cache s)) (<[key := now s]> (lasthit s))
           (schevt s) (maxtime s) (isfini s) (now s)
           (trace s ++ [Acquire; OnMiss key; Release])).
Proof.
  intros Hkey Hf. unfold get, dict_get. rewrite Hkey. simpl. rewrite Hf. simpl.
  rewrite Hkey. simpl. unfold log, set_lasthit, set_cache. simpl.
  by rewrite Hf, <- !app_assoc.
Qed.

(** C9: [pop] returns the stored value, or [None] for a key that is not
    there; the key is in neither map afterwards, nothing else changes
    in them, and the trace grows by [cache:flush] then [cache:pop].  For
    an absent key the maps are left as they were. *)
Theorem pop_removes_and_publishes key s :
  (pop key s).1 = dict_get (cache s) key PyNone ∧
  cache (pop key s).2 = delete key (cache s) ∧
  lasthit (pop key s).2 = delete key (lasthit s) ∧
  cache (pop key s).2 !! key = None ∧
  lasthit (pop key s).2 !! key = None ∧
  trace (pop key s).2 =
    trace s ++ [Fire "cache:flush" key (pop key s).1; Fire "cache:pop" key (pop key s).1] ∧
  (cache s !! key = None → (pop key s).1 = PyNone ∧ cache (pop key s).2 = cache s) ∧
  (lasthit s !! key = None → lasthit (pop key s).2 = lasthit s).
Proof.
  unfold pop, fire, log, dict_get. simpl. rewrite !lookup_delete_eq.
  split_and!; try done.
  - by rewrite <- app_assoc.
  - intros Hkey. rewrite Hkey. split; [done | by apply delete_id].
  - apply delete_id.
Qed.

(** C5: with [maxtime = m] the sweep succeeds.  Its cutoff is
    [now - m]; the keys it collects are exactly those whose [lasthit]
    is strictly below the cutoff; it pops each of them (they leave both
    maps, each with its [cache:flush] and [cache:pop]); and at the end it
    asks the scheduler to run it again in [m / 10] seconds, unless the
    cache is shut down. *)
Theorem checkCacheTimes_sweeps s m :
  maxtime s = Some m →
  let cutoff := (now s - m)%float in
  ∃ s', _checkCacheTimes s = Some s' ∧
    (∀ key, key ∈ hits cutoff s ↔
            ∃ t, lasthit s !! key = Some t ∧ PrimFloat.ltb t cutoff = true) ∧
    (∀ key, cache s' !! key =
            if decide (key ∈ hits cutoff s) then None else cache s !! key) ∧
    (∀ key, lasthit s' !! key =
            if decide (key ∈ hits cutoff s) then None else lasthit s !! key) ∧
    trace s' =
      trace s ++ (hits cutoff s ≫= pop_events s) ++
      (if isfini s then [] else [Insec (m / 10)%float]).
Proof.
  intros Hm cutoff. unfold _checkCacheTimes. rewrite Hm. simpl.
  eexists. split; [done|]. fold cutoff.
  destruct (pop_each_frame (hits cutoff s) s) as (_ & _ & Hmax & Hfini & _).
  assert (∀ s1 : @state K _ _ O, cache (reschedule s1) = cache s1 ∧
                  lasthit (reschedule s1) = lasthit s1) as Hres.
  { intros s1. unfold reschedule. destruct (maxtime s1), (isfini s1); done. }
  split_and!.
  - apply hits_spec.
  - intros key. rewrite (proj1 (Hres _)). apply pop_each_cache.
  - intros key. rewrite (proj2 (Hres _)). apply pop_each_lasthit.
  - unfold reschedule. rewrite Hmax, Hfini, Hm.
    destruct (isfini s); simpl.
    + rewrite pop_each_trace by apply NoDup_hits. by rewrite app_nil_r.
    + rewrite pop_each_trace by apply NoDup_hits. by rewrite app_assoc.
Qed.


Lemma onCacheFini_pops_all_aux s :
  cache (_onCacheFini s) = ∅ ∧
  ∀ key, lasthit (_onCacheFini s) !! key =
         if decide (key ∈ keys s) then None else lasthit s !! key.
Proof.
  unfold _onCacheFini.
  assert (cache (pop_each (keys s) s) = ∅) as Hempty.
  { apply map_eq. intros key. rewrite pop_each_cache, lookup_empty.
    case_decide as Hin; [done|]. rewrite keys_spec in Hin.
    by apply eq_None_not_Some. }
  destruct (schevt (pop_each (keys s) s)); simpl; (split; [done|]);
    intros key; apply pop_each_lasthit.
Qed.

(** What [_onCacheFini] does in any state: every key is popped, so the
    cache is empty and each key has published its two events; and the
    handle in [schevt], if there is one, is cancelled. *)
Lemma onCacheFini_pops_all s :
  cache (_onCacheFini s) = ∅ ∧
  (∀ key, lasthit (_onCacheFini s) !! key =
          if decide (key ∈ keys s) then None else lasthit s !! key) ∧
  trace (_onCacheFini s) =
    trace s ++ (keys s ≫= pop_events s) ++
    match schevt s with Some h => [Cancel h] | None => [] end.
Proof.
  unfold _onCacheFini.
  destruct (pop_each_frame (keys s) s) as (_ & -> & _).
  assert (cache (pop_each (keys s) s) = ∅) as Hempty.
  { apply map_eq. intros key. rewrite pop_each_cache, lookup_empty.
    case_decide as Hin; [done|]. rewrite keys_spec in Hin.
    by apply eq_None_not_Some. }
  destruct (schevt s); simpl; split_and!; try done.
  - apply pop_each_lasthit.
  - rewrite pop_each_trace by apply NoDup_keys. by rewrite app_assoc.
  - apply pop_each_lasthit.
  - rewrite pop_each_trace by apply NoDup_keys. by rewrite app_nil_r.
Qed.
End CacheOperations.

(** * Runs: what holds after any sequence of calls *)

Section CacheRuns.
Context {K : Type} {eqK : EqDecision K} {cntK : Countable K} {O : Type}.
Import Cache Run.
Implicit Types (s : @state K _ _ O) (key k : K) (l : list K) (val v : pyval O).
Implicit Types (o : @op K O) (ops : list (@op K O)).

Lemma run_invariant (P : @state K _ _ O → Prop) ops s s' :
  (∀ o s1 s2, P s1 → exec o s1 = Some s2 → P s2) →
  P s → run ops s = Some s' → P s'.
Proof.
  intros Hstep. revert s. induction ops as [|o ops IH]; intros s HP Hrun.
  - simpl in Hrun. by simplify_eq.
  - simpl in Hrun. destruct (exec o s) as [s1|] eqn:Ho; [|done].
    simpl in Hrun. eauto.
Qed.

(** *** The two maps keep the same keys *)

Lemma put_consistent key val s : consistent s → consistent (put key val s).
Proof. unfold consistent, put. simpl. rewrite !dom_insert_L. by intros ->. Qed.

Lemma pop_consistent key s : consistent s → consistent (pop key s).2.
Proof. unfold consistent, pop. simpl. rewrite !dom_delete_L. by intros ->. Qed.

Lemma get_consistent key s : consistent s → consistent (get key s).2.
Proof.
  unfold consistent, get, dict_get. intros Hdom.
  destruct (cache s !! key) as [val|] eqn:Hkey; simpl.
  - destruct (is_miss val) eqn:Hval; simpl.
    + destruct (onmiss s); [|done]. simpl. rewrite Hkey. simpl. rewrite Hval.
      simpl. rewrite !dom_insert_L. by rewrite Hdom.
    + rewrite dom_insert_L, <- Hdom. symmetry.
      apply subseteq_union_1_L, singleton_subseteq_l.
      by apply elem_of_dom_2 with val.
  - destruct (onmiss s); [|done]. simpl. rewrite Hkey. simpl.
    rewrite !dom_insert_L. by rewrite Hdom.
Qed.

Lemma pop_each_consistent l s : consistent s → consistent (pop_each l s).
Proof.
  revert s. induction l as [|k l IH]; intros s Hs; [done|].
  rewrite pop_each_cons. by apply IH, pop_consistent.
Qed.

Lemma flush_each_maps l s :
  cache (flush_each l s) = cache s ∧ lasthit (flush_each l s) = lasthit s.
Proof.
  revert s. induction l as [|k l IH]; intros s; [done|].
  change (flush_each (k :: l) s) with (flush_each l (flush k s).2).
  destruct (IH (flush k s).2) as [-> ->]. done.
Qed.

Lemma flush_each_trace l s :
  trace (flush_each l s) =
  trace s ++ ((λ key, Fire "cache:flush" key (dict_get (cache s) key PyNone)) <$> l).
Proof.
  revert s. induction l as [|k l IH]; intros s.
  - simpl. by rewrite app_nil_r.
  - change (flush_each (k :: l) s) with (flush_each l (flush k s).2).
    rewrite IH. simpl. by rewrite <- app_assoc.
Qed.

(** [clear] publishes one [cache:flush] for every key, with its value,
    and then leaves both maps empty. *)
Lemma clear_flushes_all s :
  cache (clear s) = ∅ ∧ lasthit (clear s) = ∅ ∧
  trace (clear s) =
    trace s ++ ((λ key, Fire "cache:flush" key (dict_get (cache s) key PyNone)) <$> keys s).
Proof. unfold clear. simpl. split_and!; [done..|]. apply flush_each_trace. Qed.

Lemma clear_consistent s : consistent (clear s).
Proof. unfold consistent, clear. simpl. by rewrite !dom_empty_L. Qed.

Lemma reschedule_maps s :
  cache (reschedule s) = cache s ∧ lasthit (reschedule s) = lasthit s.
Proof. unfold reschedule. by destruct (maxtime s), (isfini s). Qed.

Lemma checkCacheTimes_consistent s s' :
  consistent s → _checkCacheTimes s = Some s' → consistent s'.
Proof.
  unfold _checkCacheTimes. intros Hs Hsweep.
  destruct (maxtime s) as [m|]; [|done]. simpl in Hsweep. simplify_eq.
  unfold consistent. destruct (reschedule_maps (pop_each (hits (now s - m) s) s))
    as [-> ->].
  by apply pop_each_consistent.
Qed.

Lemma onCacheFini_consistent s : consistent s → consistent (_onCacheFini s).
Proof.
  intros Hs. unfold _onCacheFini.
  pose proof (pop_each_consistent (keys s) s Hs) as Hpop.
  by destruct (schevt (pop_each (keys s) s)).
Qed.

Lemma exec_consistent o s s' : consistent s → exec o s = Some s' → consistent s'.
Proof.
  intros Hs Ho. destruct o; unfold exec in Ho; try injection Ho as <-.
  - by apply put_consistent.
  - by apply get_consistent.
  - by apply pop_consistent.
  - done.
  - apply clear_consistent.
  - done.
  - by eapply checkCacheTimes_consistent.
  - by apply onCacheFini_consistent.
  - done.
Qed.

Lemma init_consistent mt om t s : __init__ mt om t = Some s → consistent s.
Proof.
  unfold __init__. destruct mt as [m|]; intros Hs.
  - by eapply checkCacheTimes_consistent, Hs.
  - by simplify_eq.
Qed.

(** C4: after the constructor and any sequence of [put], [get]
    (resolving or not), [pop], [flush], [clear], [setOnMiss], sweeps and
    shutdown, a key is in [cache] exactly when it is in [lasthit]. *)
Theorem entries_iff_lasthit mt om t ops s0 s key :
  __init__ mt om t = Some s0 → run ops s0 = Some s →
  is_Some (cache s !! key) ↔ is_Some (lasthit s !! key).
Proof.
  intros Hinit Hrun.
  assert (consistent s) as Hs.
  { eapply (run_invariant consistent); eauto using exec_consistent, init_consistent. }
  unfold consistent in Hs. by rewrite <- !(elem_of_dom (D := gset K)), Hs.
Qed.

(** *** The handle of the sweep is never kept *)

Lemma flush_each_frame l s :
  schevt (flush_each l s) = schevt s ∧ cancelled (flush_each l s) = cancelled s.
Proof.
  revert s. induction l as [|k l IH]; intros s; [done|].
  change (flush_each (k :: l) s) with (flush_each l (flush k s).2).
  destruct (IH (flush k s).2) as [-> ->]. split; [done|].
  unfold cancelled, flush, fire, log. simpl. rewrite omap_app. simpl.
  by rewrite app_nil_r.
Qed.

Lemma pop_each_cancelled l s : cancelled (pop_each l s) = cancelled s.
Proof.
  revert s. induction l as [|k l IH]; intros s; [done|].
  rewrite pop_each_cons, IH. unfold cancelled, pop, fire, log. simpl.
  rewrite !omap_app. simpl. by rewrite !app_nil_r.
Qed.

Lemma exec_schevt o s s' :
  exec o s = Some s' → schevt s = None →
  schevt s' = None ∧ cancelled s' = cancelled s.
Proof.
  intros Ho Hs. destruct o; unfold exec in Ho; try injection Ho as <-.
  - split; [done|]. unfold cancelled, put, fire, log. simpl.
    rewrite omap_app. simpl. by rewrite app_nil_r.
  - unfold get. destruct (negb _); [done|]. destruct (onmiss s); [|done].
    destruct (is_miss _); simpl; (split; [done|]); unfold cancelled; simpl;
      rewrite !omap_app; simpl; by rewrite !app_nil_r.
  - split; [done|]. apply (pop_each_cancelled [key] s).
  - split; [done|]. unfold cancelled, flush, fire, log. simpl.
    rewrite omap_app. simpl. by rewrite app_nil_r.
  - destruct (flush_each_frame (keys s) s) as [Hsch Hc].
    unfold clear. simpl. by rewrite Hsch, <- Hc.
  - done.
  - unfold _checkCacheTimes in Ho. destruct (maxtime s) as [m|]; [|done].
    simpl in Ho. simplify_eq.
    destruct (pop_each_frame (hits (now s - m) s) s) as (_ & Hs1 & _).
    pose proof (pop_each_cancelled (hits (now s - m) s) s) as Hc1.
    rewrite Hs in Hs1. revert Hs1 Hc1.
    generalize (pop_each (hits (now s - m) s) s). intros s1 Hs1 Hc1.
    unfold reschedule. destruct (maxtime s1), (isfini s1); try done.
    split; [done|]. unfold cancelled, log. simpl. rewrite omap_app. simpl.
    by rewrite app_nil_r.
  - unfold fini, _onCacheFini.
    destruct (pop_each_frame (keys (set_isfini true s)) (set_isfini true s))
      as (_ & Hsch & _).
    rewrite Hsch. simpl. rewrite Hs. split; [by rewrite Hsch|].
    by rewrite pop_each_cancelled.
  - done.
Qed.

Lemma init_schevt mt om t s :
  __init__ mt om t = Some s → schevt s = None ∧ cancelled s = [].
Proof.
  unfold __init__. destruct mt as [m|]; intros Hs; [|by simplify_eq].
  by apply (exec_schevt Sweep) in Hs.
Qed.

(** Whatever is done with a cache after its construction, [schevt]
    stays [None] and [self.sched.cancel] is never called: line 71 drops
    the handle that [insec] returns. *)
Lemma sweep_never_cancelled mt om t ops s0 s :
  __init__ mt om t = Some s0 → run ops s0 = Some s →
  schevt s = None ∧ cancelled s = [].
Proof.
  intros Hinit Hrun.
  eapply (run_invariant (λ s, schevt s = None ∧ cancelled s = [])); [| |done].
  - intros o s1 s2 [Hs Hc] Ho. destruct (exec_schevt _ _ _ Ho Hs) as [? ->]. done.
  - by eapply init_schevt.
Qed.
End CacheRuns.

(** * The cache on concrete inputs *)

Section CacheExamples.
Import Cache Example.

Lemma get_miss_resolves_witness :
  get "woot" resolving =
  (PyObj 10%Z,
   mkState (Some ten) {["woot" := PyObj 10%Z]} {["woot" := 1000%float]}
           None None false 1000%float [Acquire; OnMiss "woot"; Release]).
Proof. apply (get_miss_resolves "woot" resolving ten); reflexivity. Defined.

(** C1, as stated, fails: ["woot"] is absent from [resolving], a cache
    with a resolver, and the [get] that resolves it publishes no
    [cache:put] event. *)
Lemma get_miss_publishes_no_put :
  cache resolving !! "woot" = None ∧ onmiss resolving = Some ten ∧
  ¬ ∃ val, Fire "cache:put" "woot" val ∈ trace (get "woot" resolving).2.
Proof.
  split_and!; [reflexivity..|]. intros [val Hin].
  assert (trace (get "woot" resolving).2 = [Acquire; OnMiss "woot"; Release]) as Htrace
    by reflexivity.
  rewrite Htrace in Hin. apply list_elem_of_In in Hin. simpl in Hin.
  intuition discriminate.
Qed.

(** C2 at the empty tuple: [cache.put('woot', ())] then
    [cache.get('woot')] does not return [()].  Without a resolver it
    returns [None]; with the resolver [ten] it returns 10 and the entry
    is overwritten. *)
Theorem put_empty_tuple_then_get :
  (get "woot" (put "woot" PyEmptyTuple plain)).1 = PyNone ∧
  (get "woot" (put "woot" PyEmptyTuple resolving)).1 = PyObj 10%Z ∧
  cache (get "woot" (put "woot" PyEmptyTuple resolving)).2 !! "woot" = Some (PyObj 10%Z).
Proof. split_and!; reflexivity. Qed.

Lemma put_get_roundtrip_witness :
  (get "woot" (put "woot" (PyObj 10%Z) plain)).1 = PyObj 10%Z.
Proof. apply (put_get_roundtrip "woot" (PyObj 10%Z) plain). reflexivity. Defined.




Lemma pop_removes_and_publishes_witness :
  (pop "woot" plain).1 = PyNone ∧
  cache (pop "woot" plain).2 = cache plain ∧
  lasthit (pop "woot" plain).2 = lasthit plain ∧
  trace (pop "woot" plain).2 =
    [Fire "cache:flush" "woot" PyNone; Fire "cache:pop" "woot" PyNone].
Proof.
  destruct (pop_removes_and_publishes "woot" plain)
    as (_ & _ & _ & _ & _ & Htrace & Hcache & Hlast).
  destruct (Hcache eq_refl) as [Hval Hsame].
  split_and!; [exact Hval | exact Hsame | exact (Hlast eq_refl) |].
  rewrite Htrace, Hval. reflexivity.
Defined.

Lemma checkCacheTimes_sweeps_witness :
  maxtime aged = Some 60%float ∧ hits 940%float aged = ["old"] ∧
  ∃ s', _checkCacheTimes aged = Some s' ∧
    trace s' = [Fire "cache:flush" "old" (PyObj 1%Z); Fire "cache:pop" "old" (PyObj 1%Z);
                Insec 6%float].
Proof.
  split_and!; [reflexivity | vm_compute; reflexivity |].
  destruct (checkCacheTimes_sweeps aged 60%float eq_refl) as (s' & Hs' & _ & _ & _ & Ht).
  exists s'. split; [exact Hs'|]. rewrite Ht. vm_compute. reflexivity.
Defined.

Lemma entries_iff_lasthit_witness :
  ∃ s0 s, __init__ (Some 60%float) None 1000%float = Some s0 ∧
          Run.run session s0 = Some s ∧
          cache s = {["other" := PyObj 10%Z]} ∧
          is_Some (lasthit s !! "other") ∧ lasthit s !! "woot" = None.
Proof.
  eexists _, _. split; [vm_compute; reflexivity|].
  split; [vm_compute; reflexivity|]. split; [reflexivity|]. split.
  - eapply (entries_iff_lasthit (Some 60%float) None 1000%float session);
      [vm_compute; reflexivity..|]. by eexists.
  - apply eq_None_not_Some. intros Hwoot.
    eapply (entries_iff_lasthit (Some 60%float) None 1000%float session) in Hwoot;
      [|vm_compute; reflexivity..].
    by destruct Hwoot.
Defined.

(** C6 on [cache = Cache(maxtime=60); cache.put('woot', 10)]: the
    constructor has scheduled the sweep ([insec(6.0, ...)]).  The shutdown
    handler pops the entry, with its two events, and leaves the maps
    empty, but it calls [self.sched.cancel] on nothing: [schevt] is
    [None], and the sweep stays scheduled. *)
Theorem fini_leaves_sweep_scheduled :
  ∃ s, timed = Some s ∧ scheduled s = [6%float] ∧ schevt s = None ∧
       cache (_onCacheFini s) = ∅ ∧ lasthit (_onCacheFini s) = ∅ ∧
       trace (_onCacheFini s) =
         [Insec 6%float; Fire "cache:put" "woot" (PyObj 10%Z);
          Fire "cache:flush" "woot" (PyObj 10%Z); Fire "cache:pop" "woot" (PyObj 10%Z)] ∧
       scheduled (_onCacheFini s) = [6%float] ∧ cancelled (_onCacheFini s) = [].
Proof. eexists. split_and!; vm_compute; reflexivity. Qed.

Lemma sweep_never_cancelled_witness :
  ∃ s, timed_then_fini = Some s ∧ schevt s = None ∧ cancelled s = [].
Proof.
  eexists. split; [vm_compute; reflexivity|].
  eapply (sweep_never_cancelled (Some 60%float) None 1000%float
            [Run.Put "woot" (PyObj 10%Z); Run.Fini]); vm_compute; reflexivity.
Defined.
End CacheExamples.

(** * Properties of [KeyCache] *)

Section KeyCacheFacts.
Context {K : Type} {eqK : EqDecision K} {cntK : Countable K} {O : Type}.
Import KeyCache.
Implicit Types (s : @state K _ _ O) (key k : K) (a : @access K O)
  (l : list (@access K O)).

Lemma getitem_absent key s :
  dict s !! key = None →
  __getitem__ key s =
  (lookmeth s key,
   mkState (lookmeth s) (<[key := lookmeth s key]> (dict s)) (looked s ++ [key])).
Proof. intros Hkey. unfold __getitem__. by rewrite Hkey. Qed.

Lemma getitem_present key s val :
  dict s !! key = Some val → __getitem__ key s = (val, s).
Proof. intros Hkey. unfold __getitem__. by rewrite Hkey. Qed.

(** An entry that was popped is looked up again by the next access. *)
Lemma get_after_pop key s :
  get key (pop key s).2 =
  (lookmeth s key,
   mkState (lookmeth s) (<[key := lookmeth s key]> (dict s)) (looked s ++ [key])).
Proof.
  unfold get. rewrite getitem_absent by apply lookup_delete_eq. simpl.
  by rewrite insert_delete_eq.
Qed.

Lemma run_access_cons a l s : run (a :: l) s = run l (exec a s).
Proof. reflexivity. Qed.

Lemma exec_lookmeth a s : lookmeth (exec a s) = lookmeth s.
Proof.
  destruct a; simpl; try done; unfold get, __getitem__; by destruct (dict s !! key).
Qed.

Lemma run_lookmeth l s : lookmeth (run l s) = lookmeth s.
Proof.
  revert s. induction l as [|a l IH]; intros s; [done|].
  by rewrite run_access_cons, IH, exec_lookmeth.
Qed.

Lemma lookups_snoc key k s (f : K → pyval O) (d : gmap K (pyval O)) :
  lookups key (mkState f d (looked s ++ [k])) =
  lookups key s + (if decide (k = key) then 1 else 0).
Proof.
  unfold lookups. simpl. rewrite filter_app, length_app, filter_cons, filter_nil.
  by case_decide.
Qed.

Lemma getitem_looked_once key k s :
  looked_once key s → looked_once key (__getitem__ k s).2.
Proof.
  intros [Hle Hin]. destruct (dict s !! k) as [val|] eqn:Hk.
  { by rewrite (getitem_present _ _ _ Hk). }
  rewrite (getitem_absent _ _ Hk). unfold looked_once. simpl.
  rewrite lookups_snoc. destruct (decide (k = key)) as [->|Hne].
  - rewrite lookup_insert_eq.
    assert (lookups key s = 0) as ->.
    { destruct (lookups key s) as [|n] eqn:Hn; [done|].
      destruct Hin as [? ?]; [lia|congruence]. }
    split; [lia|eauto].
  - rewrite lookup_insert_ne by done. rewrite Nat.add_0_r. done.
Qed.

(** Any call other than [pop(key)] keeps the count for [key]. *)
Lemma exec_looked_once key a s :
  a ≠ Pop key → looked_once key s → looked_once key (exec a s).
Proof.
  intros Ha Hs. destruct a as [k|k|k val|k]; [by apply getitem_looked_once..| |].
  - destruct Hs as [Hle Hin]. split; [done|]. intros Hpos. simpl.
    destruct (decide (k = key)) as [->|Hne].
    + rewrite lookup_insert_eq. eauto.
    + rewrite lookup_insert_ne by done. auto.
  - destruct Hs as [Hle Hin]. split; [done|]. intros Hpos. simpl.
    rewrite lookup_delete_ne by congruence. auto.
Qed.

Lemma run_looked_once key l s :
  Pop key ∉ l → looked_once key s → looked_once key (run l s).
Proof.
  revert s. induction l as [|a l IH]; intros s Hl Hs; [done|].
  apply not_elem_of_cons in Hl as [Ha Hl].
  rewrite run_access_cons. apply IH; [done|]. by apply exec_looked_once.
Qed.

Lemma exec_keeps_key key a s :
  a ≠ Pop key → is_Some (dict s !! key) → is_Some (dict (exec a s) !! key).
Proof.
  intros Ha Hkey. destruct a as [k|k|k val|k];
    unfold exec, put, get, pop, __getitem__, __missing__, __setitem__.
  1,2: destruct (dict s !! k) eqn:Hk; [done|].
  1-3: simpl; destruct (decide (k = key)) as [->|Hne];
    [rewrite lookup_insert_eq; eauto | by rewrite lookup_insert_ne].
  simpl. rewrite lookup_delete_ne by congruence. done.
Qed.

Lemma run_keeps_key key l s :
  Pop key ∉ l → is_Some (dict s !! key) → is_Some (dict (run l s) !! key).
Proof.
  revert s. induction l as [|a l IH]; intros s Hl Hs; [done|].
  apply not_elem_of_cons in Hl as [Ha Hl].
  rewrite run_access_cons. apply IH; [done|]. by apply exec_keeps_key.
Qed.

Lemma exec_lookups_mono key a s : lookups key s ≤ lookups key (exec a s).
Proof.
  destruct a as [k|k|k val|k]; simpl; try done;
    unfold get, __getitem__, __missing__, __setitem__;
    (destruct (dict s !! k); [done|]); simpl; rewrite lookups_snoc; lia.
Qed.

Lemma run_lookups_mono key l s : lookups key s ≤ lookups key (run l s).
Proof.
  revert s. induction l as [|a l IH]; intros s; [done|].
  rewrite run_access_cons. etrans; [apply (exec_lookups_mono key a)|apply IH].
Qed.

(** C10 (amended): after any sequence of [get], indexed accesses, [put]
    and [pop] on a new [KeyCache] in which [key] itself is not popped, the
    lookup has run at most once for [key].  In the state reached, [get]
    and [cache[key]] of an absent key call the lookup, store its result
    (whatever it is, [None] included) and return it; of a key that is
    there, they return the stored value and leave the state as it is, and
    that is what every access does after the first, as long as [key] is
    not popped. *)
Theorem lookmeth_at_most_once (f : K → pyval O) l key :
  Pop key ∉ l →
  let s := run l (__init__ f) in
  lookups key s ≤ 1 ∧
  (dict s !! key = None →
     get key s = (f key, mkState f (<[key := f key]> (dict s)) (looked s ++ [key])) ∧
     __getitem__ key s = get key s ∧
     ∀ l', Pop key ∉ l' →
           let s' := run l' (get key s).2 in
           ∃ val, dict s' !! key = Some val ∧ get key s' = (val, s') ∧
                  __getitem__ key s' = (val, s') ∧ lookups key s' = 1) ∧
  (∀ val, dict s !! key = Some val →
     get key s = (val, s) ∧ __getitem__ key s = (val, s)).
Proof.
  intros Hl s.
  assert (looked_once key s) as Hs.
  { apply run_looked_once; [done|]. split; unfold lookups; simpl; lia. }
  assert (lookmeth s = f) as Hf by apply run_lookmeth.
  split_and!.
  - apply Hs.
  - intros Hkey. unfold get. rewrite (getitem_absent _ _ Hkey), Hf.
    split_and!; [done..|]. intros l' Hl'. simpl.
    pose proof (getitem_looked_once key key s Hs) as Hs1.
    assert (0 < lookups key (__getitem__ key s).2) as Hpos.
    { rewrite (getitem_absent _ _ Hkey). cbn [snd]. rewrite lookups_snoc.
      rewrite decide_True by done. lia. }
    rewrite (getitem_absent _ _ Hkey), Hf in Hs1, Hpos. simpl in Hs1, Hpos.
    revert Hs1 Hpos. set (s1 := mkState f _ _). intros Hs1 Hpos.
    set (s' := run l' s1).
    assert (is_Some (dict s' !! key)) as [val Hval].
    { apply run_keeps_key; [done|]. simpl. rewrite lookup_insert_eq. eauto. }
    exists val. rewrite (getitem_present _ _ _ Hval). split_and!; [done..|].
    assert (looked_once key s') as [Hle _] by by apply run_looked_once.
    pose proof (run_lookups_mono key l' s1) as Hmono. fold s' in Hmono. lia.
  - intros val Hkey. unfold get. by rewrite (getitem_present _ _ _ Hkey).
Qed.
End KeyCacheFacts.

Section KeyCacheExamples.
Import KeyCache Example.

(** A lookup that returns [None]: the result is stored, and the second
    [get] does not look up again. *)
Lemma lookmeth_at_most_once_witness :
  get "woot" none_cache =
    (PyNone, mkState (λ _, PyNone) {["woot" := PyNone]} ["woot"]) ∧
  get "woot" (get "woot" none_cache).2 = (PyNone, (get "woot" none_cache).2) ∧
  lookups "woot" (get "woot" (get "woot" none_cache).2).2 = 1.
Proof.
  destruct (lookmeth_at_most_once (λ _ : string, @PyNone Z) [] "woot")
    as (_ & Habsent & _); [apply not_elem_of_nil|].
  destruct (Habsent eq_refl) as (Hget & _ & Hlater).
  split; [exact Hget|].
  destruct (Hlater [] (not_elem_of_nil _)) as (val & Hval & Hget' & _ & _).
  destruct (Hlater [Get "woot"]) as (_ & _ & _ & _ & Hcount).
  { intros Hin%list_elem_of_singleton. discriminate. }
  split; [|exact Hcount].
  vm_compute in Hval. injection Hval as <-. exact Hget'.
Defined.

(** C10, as stated, fails: [cache.get('woot'); cache.pop('woot');
    cache.get('woot')] invokes the lookup twice for the same key. *)
Lemma pop_then_get_looks_up_again :
  lookups "woot" (get "woot" none_cache).2 = 1 ∧
  dict (pop "woot" (get "woot" none_cache).2).2 !! "woot" = None ∧
  lookups "woot" (get "woot" (pop "woot" (get "woot" none_cache).2).2).2 = 2.
Proof. split_and!; reflexivity. Qed.
End KeyCacheExamples.

(** * Properties of [BulkQueue] *)

Section BulkQueueFacts.
Context {A : Type}.
Import BulkQueue.
Implicit Types (q : @state A) (l : list (@enqueue A)) (e : @enqueue A) (t : float).

Lemma get_returns_pending t q : (get t q).1 = pending q ∧ pending (get t q).2 = [].
Proof. unfold get. by destruct (pending q) eqn:Hq. Qed.

Lemma extend_open items q :
  closed q = false →
  extend items q = mkState (pending q ++ items) (lastConsumedAt q) false.
Proof. intros Hq. unfold extend. by rewrite Hq. Qed.

Lemma enqueued_cons e l :
  enqueued (e :: l) =
  match e with Put item => [item] | Extend items => items end ++ enqueued l.
Proof. reflexivity. Qed.

Lemma run_open l q :
  closed q = false →
  run l q = mkState (pending q ++ enqueued l) (lastConsumedAt q) false.
Proof.
  revert q. induction l as [|e l IH]; intros q Hq.
  - simpl. rewrite app_nil_r. by destruct q; simplify_eq/=.
  - change (run (e :: l) q) with (run l (exec e q)).
    assert (exec e q =
            mkState (pending q ++ match e with Put item => [item] | Extend items => items end)
                    (lastConsumedAt q) false) as ->.
    { destruct e; simpl; unfold put; by rewrite extend_open. }
    rewrite IH by done. rewrite enqueued_cons.
    cbn [pending lastConsumedAt]. by rewrite app_assoc.
Qed.

Lemma run_closed l q : closed q = true → run l q = q.
Proof.
  intros Hq. induction l as [|e l IH]; [done|].
  change (run (e :: l) q) with (run l (exec e q)).
  assert (exec e q = q) as ->; [|done].
  destruct e; simpl; unfold put, extend; by rewrite Hq.
Qed.

Lemma get_run_open l q t :
  closed q = false → (get t (run l q)).1 = pending q ++ enqueued l.
Proof.
  intros Hq. destruct (get_returns_pending t (run l q)) as [-> _].
  by rewrite run_open.
Qed.

(** C7: after any sequence of [put] and [extend] calls, [get] returns
    everything that is pending and leaves nothing pending.  On an open
    queue that is what was pending before, followed by the items of the
    calls in call order, each [extend] batch in one piece; a closed queue
    has taken none of them. *)
Theorem get_drains_in_enqueue_order l q t :
  (get t (run l q)).1 = pending (run l q) ∧
  pending (get t (run l q)).2 = [] ∧
  pending (run l q) = pending q ++ (if closed q then [] else enqueued l).
Proof.
  destruct (get_returns_pending t (run l q)) as [-> ->]. split_and!; [done..|].
  destruct (closed q) eqn:Hq.
  - by rewrite run_closed, app_nil_r.
  - by rewrite run_open.
Qed.

(** C8: [hyber] writes the pending items to the sink and returns the
    queue as it was, so whatever is enqueued afterwards, the next [get]
    gives what it would have given without the call: on an open queue,
    the items that were pending followed by the later ones, in order. *)
Theorem hyber_leaves_pending sink q l t :
  (hyber sink q).1 = sink ++ [pending q] ∧
  pending (hyber sink q).2 = pending q ∧
  get t (run l (hyber sink q).2) = get t (run l q) ∧
  (closed q = false →
   (get t (run l (hyber sink q).2)).1 = pending q ++ enqueued l).
Proof.
  unfold hyber. simpl. split_and!; [done..|].
  intros Hq. by apply get_run_open.
Qed.
End BulkQueueFacts.

Section BulkQueueExamples.
Import BulkQueue Example.

(** test_queue_bulk: [put(1); extend((2,3)); get()] is [(1,2,3)]. *)
Lemma get_drains_in_enqueue_order_witness :
  (get 3%float bulk).1 = [1%Z; 2%Z; 3%Z] ∧ pending (get 3%float bulk).2 = [].
Proof.
  destruct (get_drains_in_enqueue_order
              [Put 1%Z; Extend [2%Z; 3%Z]] (__init__ 0%float) 3%float)
    as (Hget & Hrest & Hpending).
  split; [|exact Hrest]. unfold bulk. rewrite Hget. exact Hpending.
Defined.

(** test_queue_hybernate: [extend(['foo','bar']); hyber(f); put('baz');
    extend(['faz']); get()] is [('foo','bar','baz','faz')]. *)
Lemma hyber_leaves_pending_witness :
  (hyber [] foobar).1 = [["foo"; "bar"]] ∧
  (get 1%float (run [Put "baz"; Extend ["faz"]] (hyber [] foobar).2)).1 =
    ["foo"; "bar"; "baz"; "faz"].
Proof.
  destruct (hyber_leaves_pending [] foobar [Put "baz"; Extend ["faz"]] 1%float)
    as (Hsink & _ & _ & Hget).
  split; [exact Hsink | exact (Hget eq_refl)].
Defined.

(** The end of test_queue_hybernate: after the drain, [put('baz')] and
    [get()] give one item. *)
Example test_queue_hybernate_end :
  let q := (get 1%float (run [Put "baz"; Extend ["faz"]] (hyber [] foobar).2)).2 in
  length (get 2%float (put "baz" q)).1 = 1.
Proof. reflexivity. Qed.
End BulkQueueExamples.

(** * Threads inside [Cache.get] *)

Section ThreadsFacts.
Context {K : Type} {eqK : EqDecision K} {cntK : Countable K} {O : Type}.
Context (key : K) (f : K → pyval O).
Import Threads.
Implicit Types (m : @shared K _ _ O) (p q : @pc O) (c : @config K _ _ O) (i j : nat).

(** *** Runs *)

Lemma run_cons i sched c :
  run key (i :: sched) c = run key sched (default c (step key i c)).
Proof. reflexivity. Qed.

Lemma run_preserves (P : @config K _ _ O → Prop) sched c :
  (∀ i c1 c2, P c1 → step key i c1 = Some c2 → P c2) → P c → P (run key sched c).
Proof.
  intros Hstep. revert c. induction sched as [|i sched IH]; intros c Hc; [done|].
  rewrite run_cons. apply IH. destruct (step key i c) as [c'|] eqn:Hi; [|done].
  by eapply Hstep.
Qed.

Lemma run_length sched c : length (threads (run key sched c)) = length (threads c).
Proof.
  revert c. induction sched as [|i sched IH]; intros c; [done|].
  rewrite run_cons, IH. unfold step.
  destruct (threads c !! i) as [p|]; [|done]. simpl.
  destruct (step_thread key p (mem c)) as [[p' m']|]; [|done]. simpl.
  by rewrite length_insert.
Qed.

(** *** The lock, for any resolver *)

Lemma step_thread_lock p m p' m' :
  step_thread key p m = Some (p', m') →
  if critical p then
    (critical p' = true ∧ cachelock m' = cachelock m) ∨
    (critical p' = false ∧ cachelock m' = false)
  else
    (critical p' = false ∧ cachelock m' = cachelock m) ∨
    (critical p' = true ∧ cachelock m = false ∧ cachelock m' = true).
Proof.
  destruct p; simpl; intros Hst;
    repeat (case_match; simplify_eq/=); simplify_eq/=; auto.
  destruct (onmiss m); simplify_eq/=. auto.
Qed.

Lemma step_lock_ok i c c' : lock_ok c → step key i c = Some c' → lock_ok c'.
Proof.
  intros (h & Hth & Hlock) Hstep. unfold step in Hstep.
  destruct (threads c !! i) as [p|] eqn:Hp; [|done]. simpl in Hstep.
  destruct (step_thread key p (mem c)) as [[p' m']|] eqn:Hst; [|done].
  simpl in Hstep. injection Hstep as <-.
  pose proof (lookup_lt_Some _ _ _ Hp) as Hlen.
  pose proof (Hth i p Hp) as Hi. apply step_thread_lock in Hst.
  assert (∀ h' : option nat,
            (critical p' = true ↔ h' = Some i) →
            (∀ j, j ≠ i → h' = Some j ↔ h = Some j) →
            (cachelock m' = true ↔ is_Some h') →
            lock_ok (mkConfig m' (<[i := p']> (threads c)))) as Hintro.
  { intros h' Hi' Hj' Hlock'. exists h'. split; [|done]. simpl. intros j q Hq.
    destruct (decide (j = i)) as [->|Hne].
    - rewrite list_lookup_insert_eq in Hq by done. by simplify_eq.
    - rewrite list_lookup_insert_ne in Hq by done. rewrite (Hj' j Hne). by apply Hth. }
  destruct (critical p) eqn:Hcp.
  - assert (h = Some i) as -> by by apply Hi.
    destruct Hst as [[Hcp' Hl]|[Hcp' Hl]].
    + apply (Hintro (Some i)); [by rewrite Hcp'|done|by rewrite Hl].
    + apply (Hintro None).
      * rewrite Hcp'. split; done.
      * intros j Hj. split; [done|congruence].
      * rewrite Hl. split; [done|by intros [? ?]].
  - assert (h ≠ Some i) as Hne by (intros Heq; apply Hi in Heq; congruence).
    destruct Hst as [[Hcp' Hl]|(Hcp' & Hfree & Hl)].
    + apply (Hintro h); [|done|by rewrite Hl].
      rewrite Hcp'. split; [done|]. intros ->. done.
    + assert (h = None) as ->.
      { destruct h as [j|]; [|done]. assert (cachelock (mem c) = true) by (apply Hlock; eauto).
        congruence. }
      apply (Hintro (Some i)).
      * by rewrite Hcp'.
      * intros j Hj. split; [congruence|done].
      * rewrite Hl. split; eauto.
Qed.

Lemma start_lock_ok n m : cachelock m = false → lock_ok (start n m).
Proof.
  intros Hfree. exists None. split.
  - intros i p [-> _]%lookup_replicate. simpl. split; done.
  - simpl. rewrite Hfree. split; [done|by intros [? ?]].
Qed.

(** Whatever the resolver and however the threads are scheduled, no two
    threads are inside the [with] block, or inside the resolver, at the
    same time. *)
Lemma gets_never_overlap n m sched :
  cachelock m = false →
  let c := run key sched (start n m) in
  (∀ i j p q, threads c !! i = Some p → threads c !! j = Some q →
              critical p = true → critical q = true → i = j) ∧
  (∀ i j p q, threads c !! i = Some p → threads c !! j = Some q →
              in_resolver p = true → in_resolver q = true → i = j).
Proof.
  intros Hfree c.
  assert (lock_ok c) as (h & Hth & _).
  { apply run_preserves; [|by apply start_lock_ok]. intros i c1 c2. apply step_lock_ok. }
  assert (∀ i j p q, threads c !! i = Some p → threads c !! j = Some q →
            critical p = true → critical q = true → i = j) as Hexcl.
  { intros i j p q Hp Hq Hcp Hcq.
    apply (Hth i p Hp) in Hcp. apply (Hth j q Hq) in Hcq. congruence. }
  split; [done|]. intros i j p q Hp Hq Hrp Hrq.
  apply (Hexcl i j p q); try done; [by destruct p | by destruct q].
Qed.

(** *** The keys of the two maps, for any resolver *)

Lemma step_thread_maps p m p' m' :
  step_thread key p m = Some (p', m') → knows_key key m p →
  knows_key key m' p' ∧
  (∀ q, knows_key key m q → knows_key key m' q) ∧
  match p with
  | L103 _ =>
      before_stamp p' = true ∧
      dom (cache m') =@{gset K} {[key]} ∪ dom (cache m) ∧ lasthit m' = lasthit m
  | L92 _ | L104 _ =>
      before_stamp p' = false ∧ cache m' = cache m ∧
      dom (lasthit m') =@{gset K} {[key]} ∪ dom (lasthit m) ∧ key ∈ dom (cache m)
  | _ => before_stamp p' = false ∧ cache m' = cache m ∧ lasthit m' = lasthit m
  end.
Proof.
  assert (∀ m1 : @shared K _ _ O, (is_Some (cache m !! key) → is_Some (cache m1 !! key)) →
            ∀ q, knows_key key m q → knows_key key m1 q) as Hmono.
  { intros m1 Hm1 q. destruct q; simpl; auto. }
  destruct p; simpl; intros Hst Hp.
  - (* L90 *) injection Hst as <- <-. split_and!; try done. simpl. unfold dict_get.
    destruct (cache m !! key); [eauto|done].
  - (* L91 *) injection Hst as <- <-. split_and!; try done.
    destruct (is_miss val); simpl; auto.
    by destruct (is_miss val).
  - (* L92 *) injection Hst as <- <-. destruct Hp as [val' Hp]. split_and!; try done.
    + by apply dom_insert_L.
    + by eapply elem_of_dom_2.
  - (* L93 *) injection Hst as <- <-. by split_and!.
  - (* L95 *) injection Hst as <- <-. split_and!; try done; by destruct (onmiss m).
  - (* L98 *) destruct (cachelock m); [done|]. injection Hst as <- <-.
    by split_and!.
  - (* L99 *) injection Hst as <- <-. by split_and!.
  - (* L100 *) injection Hst as <- <-. split_and!; try done; by destruct (is_miss val).
  - (* L101 *) destruct (onmiss m); [|done]. simpl in Hst. injection Hst as <- <-.
    split_and!; try done; try by apply Hmono.
  - (* the resolver returns *) injection Hst as <- <-. by split_and!.
  - (* L103 *) injection Hst as <- <-. split_and!; try done.
    + simpl. rewrite lookup_insert_eq. eauto.
    + apply Hmono. simpl. rewrite lookup_insert_eq. eauto.
    + by apply dom_insert_L.
  - (* L104 *) injection Hst as <- <-. destruct Hp as [val' Hp]. split_and!; try done.
    + by apply dom_insert_L.
    + by eapply elem_of_dom_2.
  - (* L105 *) injection Hst as <- <-. split_and!; try done; try by apply Hmono.
  - done.
Qed.

Lemma step_maps_ok i c c' : maps_ok key c → step key i c = Some c' → maps_ok key c'.
Proof.
  intros (Hth & Hmaps) Hstep. unfold step in Hstep.
  destruct (threads c !! i) as [p|] eqn:Hp; [|done]. simpl in Hstep.
  destruct (step_thread key p (mem c)) as [[p' m']|] eqn:Hst; [|done].
  simpl in Hstep. injection Hstep as <-.
  pose proof (lookup_lt_Some _ _ _ Hp) as Hlen.
  destruct (step_thread_maps _ _ _ _ Hst (Hth i p Hp)) as (Hp' & Hmono & Hcase).
  split; simpl.
  { intros j q Hq. destruct (decide (j = i)) as [->|Hne].
    - rewrite list_lookup_insert_eq in Hq by done. by simplify_eq.
    - rewrite list_lookup_insert_ne in Hq by done. eauto. }
  assert (before_stamp p = false → before_stamp p' = false →
          cache m' = cache (mem c) → lasthit m' = lasthit (mem c) →
          same_keys m' ∨
          (∃ j q, <[i := p']> (threads c) !! j = Some q ∧ before_stamp q = true) ∧
          dom (cache m') =@{gset K} {[key]} ∪ dom (lasthit m')) as Hframe.
  { intros Hb Hb' Hcache Hlast. unfold same_keys. rewrite Hcache, Hlast.
    destruct Hmaps as [Hsame|[(j & q & Hq & Hbq) Hdom]]; [by left|right].
    split; [|done]. exists j, q. split; [|done].
    rewrite list_lookup_insert_ne; [done|]. intros ->. congruence. }
  assert (dom (lasthit m') =@{gset K} {[key]} ∪ dom (lasthit (mem c)) →
          cache m' = cache (mem c) → key ∈ dom (cache (mem c)) →
          same_keys m') as Hstamp.
  { intros Hlast Hcache Hkey. unfold same_keys. rewrite Hlast, Hcache.
    destruct Hmaps as [Hsame|[_ Hdom]].
    - unfold same_keys in Hsame. rewrite <- Hsame. symmetry.
      by apply subseteq_union_1_L, singleton_subseteq_l.
    - done. }
  destruct p; simpl in Hcase;
    try (destruct Hcase as (Hb' & Hcache & Hlast); by apply Hframe).
  - destruct Hcase as (_ & Hcache & Hlast & Hkey). left. by apply Hstamp.
  - destruct Hcase as (Hb' & Hcache & Hlast). right. split.
    + exists i, p'. split; [|done]. by apply list_lookup_insert_eq.
    + rewrite Hcache, Hlast. destruct Hmaps as [Hsame|[_ Hdom]].
      * unfold same_keys in Hsame. by rewrite Hsame.
      * rewrite Hdom. by rewrite (assoc_L (∪)), (idemp_L (∪)).
  - destruct Hcase as (_ & Hcache & Hlast & Hkey). left. by apply Hstamp.
Qed.

Lemma start_maps_ok n m : same_keys m → maps_ok key (start n m).
Proof.
  intros Hm. split; [|by left]. by intros i p [-> _]%lookup_replicate.
Qed.

(** Whatever the resolver and however the threads are scheduled, the two
    maps have the same keys in every state in which no thread stands
    between the store of line 103 and the stamp of line 104. *)
Lemma gets_keep_same_keys n m sched :
  same_keys m →
  let c := run key sched (start n m) in
  (∀ i p, threads c !! i = Some p → before_stamp p = false) → same_keys (mem c).
Proof.
  intros Hm c Hnone.
  assert (maps_ok key c) as (_ & [Hsame|[(i & p & Hp & Hb) _]]); [|done|].
  { apply run_preserves; [|by apply start_maps_ok]. intros i c1 c2. apply step_maps_ok. }
  apply Hnone in Hp. congruence.
Qed.

(** *** The value, for a resolver that does not return the empty tuple *)

Lemma same_view m m' p :
  cache m' = cache m → calls m' = calls m →
  (inside_ok key f m p → inside_ok key f m' p) ∧
  (outside_ok key f m p → outside_ok key f m' p) ∧
  (quiet key f m → quiet key f m').
Proof.
  intros Hcache Hcalls.
  unfold inside_ok, outside_ok, quiet, stored, absent. rewrite Hcache, Hcalls.
  by destruct p.
Qed.

Lemma outside_mono m m' p :
  (stored key f m → stored key f m') →
  outside_ok key f m p → outside_ok key f m' p.
Proof. intros Hmono. destruct p; simpl; tauto. Qed.

Lemma inside_critical m p : inside_ok key f m p → critical p = true.
Proof. by destruct p. Qed.

Lemma outside_critical m p : outside_ok key f m p → critical p = false.
Proof. by destruct p. Qed.

Lemma inside_view m p : inside_ok key f m p → absent key m ∨ stored key f m.
Proof. destruct p; simpl; unfold quiet, stored; try done; tauto. Qed.

Lemma inside_calls m p : inside_ok key f m p → calls m ≤ 1.
Proof. destruct p; simpl; unfold quiet, stored; try done; lia. Qed.

(** The cache either lacks the key or holds the resolver's result. *)
Lemma invariant_view c :
  invariant key f c → absent key (mem c) ∨ stored key f (mem c).
Proof.
  intros (_ & [h|] & Hth & Hlock).
  - destruct Hlock as [_ Hlen]. apply lookup_lt_is_Some in Hlen as [p Hp].
    specialize (Hth h p Hp). rewrite decide_True in Hth by done.
    by eapply inside_view.
  - destruct Hlock as [_ [[? _]|?]]; auto.
Qed.

Lemma invariant_intro c i p p' m' holder :
  threads c !! i = Some p →
  onmiss m' = Some f →
  (if decide (holder = Some i) then inside_ok key f m' p' else outside_ok key f m' p') →
  (∀ j q, j ≠ i → threads c !! j = Some q →
          if decide (holder = Some j) then inside_ok key f m' q
          else outside_ok key f m' q) →
  match holder with
  | None => cachelock m' = false ∧ quiet key f m'
  | Some j => cachelock m' = true ∧ j < length (threads c)
  end →
  invariant key f (mkConfig m' (<[i := p']> (threads c))).
Proof.
  intros Hp Hon Hi Hothers Hlock. split; [done|]. exists holder. simpl. split.
  - intros j q Hj. destruct (decide (j = i)) as [->|Hne].
    + rewrite list_lookup_insert_eq in Hj by (by eapply lookup_lt_Some).
      by simplify_eq.
    + rewrite list_lookup_insert_ne in Hj by done. by apply Hothers.
  - destruct holder; [|done]. by rewrite length_insert.
Qed.

Local Ltac step_to c i holder Hp Hon :=
  apply (invariant_intro c i _ _ _ holder Hp); [first [exact Hon | reflexivity]|..].

(** One step of any thread keeps the invariant. *)
Lemma step_invariant i c c' :
  is_miss (f key) = false →
  invariant key f c → step key i c = Some c' → invariant key f c'.
Proof.
  intros Hf Hinv Hstep. pose proof (invariant_view c Hinv) as Hview.
  destruct Hinv as (Hon & h & Hth & Hlock). unfold step in Hstep.
  destruct (threads c !! i) as [p|] eqn:Hp; [|done]. simpl in Hstep.
  destruct (step_thread key p (mem c)) as [[p' m']|] eqn:Hst; [|done].
  simpl in Hstep. injection Hstep as <-.
  pose proof (lookup_lt_Some _ _ _ Hp) as Hlen.
  pose proof (Hth i p Hp) as Hi.
  destruct (decide (h = Some i)) as [->|Hne].
  - (* thread [i] holds the lock *)
    assert (∀ m1, (stored key f (mem c) → stored key f m1) →
              ∀ j q, j ≠ i → threads c !! j = Some q → outside_ok key f m1 q)
      as Hothers.
    { intros m1 Hmono j q Hj Hq. specialize (Hth j q Hq).
      rewrite decide_False in Hth by congruence. by eapply outside_mono. }
    destruct Hlock as [Hlocked _].
    assert (∀ m1 j q, (stored key f (mem c) → stored key f m1) →
              j ≠ i → threads c !! j = Some q →
              if decide (Some i = Some j) then inside_ok key f m1 q
              else outside_ok key f m1 q) as Hstay.
    { intros m1 j q Hmono Hj Hq. rewrite decide_False by congruence. eauto. }
    destruct p; simpl in Hi; try done; simpl in Hst.
    + (* L99: read under the lock *)
      injection Hst as <- <-.
      step_to c i (Some i) Hp Hon; [ |intros j q; by apply Hstay|simpl; auto].
      rewrite decide_True by done. simpl. unfold dict_get.
      destruct Hi as [[Habs Hcalls]|[Hc Hcalls]].
      * left. unfold absent in Habs. by rewrite Habs.
      * right. rewrite Hc. by split.
    + (* L100: the test *)
      injection Hst as <- <-.
      step_to c i (Some i) Hp Hon; [ |intros j q; by apply Hstay|simpl; auto].
      rewrite decide_True by done.
      destruct Hi as [(Hval & Habs & Hcalls)|[-> [Hc Hcalls]]].
      * by rewrite Hval.
      * rewrite Hf. simpl. auto.
    + (* L101: the resolver is called *)
      rewrite Hon in Hst. simpl in Hst. injection Hst as <- <-.
      destruct Hi as [Habs Hcalls].
      step_to c i (Some i) Hp Hon; [ | |simpl; auto].
      * rewrite decide_True by done. simpl. by rewrite Hcalls.
      * intros j q. apply Hstay. intros [Hc _]. unfold absent in Habs. congruence.
    + (* the resolver returns *)
      injection Hst as <- <-.
      step_to c i (Some i) Hp Hon; [ |intros j q; by apply Hstay|simpl; auto].
      rewrite decide_True by done. simpl. tauto.
    + (* L103: the store *)
      injection Hst as <- <-. destruct Hi as (-> & Hcalls & _).
      step_to c i (Some i) Hp Hon; [ | |simpl; auto].
      * rewrite decide_True by done. simpl. unfold stored. simpl.
        by rewrite lookup_insert_eq.
      * intros j q. apply Hstay. intros [_ ?]. unfold stored. simpl.
        by rewrite lookup_insert_eq.
    + (* L104 *)
      injection Hst as <- <-.
      step_to c i (Some i) Hp Hon; [ |intros j q; by apply Hstay|simpl; auto].
      by rewrite decide_True by done.
    + (* L105: return, the lock is released *)
      injection Hst as <- <-.
      step_to c i (@None nat) Hp Hon.
      * rewrite decide_False by done. done.
      * intros j q Hj Hq. rewrite decide_False by done.
        exact (Hothers _ (λ Hs, Hs) j q Hj Hq).
      * split; [done|]. right. apply Hi.
  - (* thread [i] is outside the block *)
    assert (∀ m1 j q, cache m1 = cache (mem c) → calls m1 = calls (mem c) →
              j ≠ i → threads c !! j = Some q →
              if decide (h = Some j) then inside_ok key f m1 q
              else outside_ok key f m1 q) as Hstay.
    { intros m1 j q Hcache Hcalls Hj Hq. specialize (Hth j q Hq).
      destruct (same_view (mem c) m1 q Hcache Hcalls) as (? & ? & _).
      case_decide; auto. }
    destruct p; simpl in Hi; try done; simpl in Hst.
    + (* L90: read without the lock *)
      injection Hst as <- <-.
      step_to c i h Hp Hon; [ |intros j q; by apply Hstay|done].
      rewrite decide_False by done. simpl. unfold dict_get.
      destruct Hview as [Habs|[Hc Hcalls]].
      * left. unfold absent in Habs. by rewrite Habs.
      * right. rewrite Hc. by split.
    + (* L91: the test *)
      injection Hst as <- <-.
      step_to c i h Hp Hon; [ |intros j q; by apply Hstay|done].
      rewrite decide_False by done.
      destruct Hi as [Hval|[-> [Hc Hcalls]]].
      * by rewrite Hval.
      * rewrite Hf. simpl. by split.
    + (* L92 *)
      injection Hst as <- <-.
      step_to c i h Hp Hon; [ |intros j q; by apply Hstay|].
      * by rewrite decide_False by done.
      * by destruct h.
    + (* L93 *)
      injection Hst as <- <-.
      step_to c i h Hp Hon; [ |intros j q; by apply Hstay|done].
      by rewrite decide_False by done.
    + (* L95 *)
      rewrite Hon in Hst. injection Hst as <- <-.
      step_to c i h Hp Hon; [ |intros j q; by apply Hstay|done].
      by rewrite decide_False by done.
    + (* L98: the lock is taken *)
      destruct (cachelock (mem c)) eqn:Hfree; [done|]. injection Hst as <- <-.
      destruct h as [j|]; [destruct Hlock; congruence|]. destruct Hlock as [_ Hquiet].
      step_to c i (Some i) Hp Hon; [ | |by simpl].
      * by rewrite decide_True by done.
      * intros j q Hj Hq. rewrite decide_False by congruence.
        specialize (Hth j q Hq). by rewrite decide_False in Hth by done.
Qed.
Lemma start_invariant n m :
  onmiss m = Some f → cache m !! key = None → cachelock m = false → calls m = 0 →
  invariant key f (start n m).
Proof.
  intros Hon Hkey Hfree Hcalls. split; [done|]. exists None. split.
  - intros i p [-> _]%lookup_replicate. by rewrite decide_False.
  - split; [done|]. by left.
Qed.

Lemma run_keeps_invariant sched c :
  is_miss (f key) = false → invariant key f c → invariant key f (run key sched c).
Proof.
  intros Hf. apply run_preserves. intros i c1 c2. by apply step_invariant.
Qed.

(** *** What the invariant gives *)

Lemma invariant_exclusive c i j p q :
  invariant key f c →
  threads c !! i = Some p → threads c !! j = Some q →
  critical p = true → critical q = true → i = j.
Proof.
  intros (_ & h & Hth & _) Hp Hq Hcp Hcq.
  pose proof (Hth i p Hp) as Hi. pose proof (Hth j q Hq) as Hj.
  destruct (decide (h = Some i)) as [->|]; cycle 1.
  { apply outside_critical in Hi. congruence. }
  destruct (decide (Some i = Some j)) as [|]; [congruence|].
  apply outside_critical in Hj. congruence.
Qed.

Lemma invariant_calls c : invariant key f c → calls (mem c) ≤ 1.
Proof.
  intros (_ & [h|] & Hth & Hlock).
  - destruct Hlock as [_ Hlen]. apply lookup_lt_is_Some in Hlen as [p Hp].
    specialize (Hth h p Hp). rewrite decide_True in Hth by done.
    by eapply inside_calls.
  - destruct Hlock as [_ [[_ ->]|[_ ->]]]; lia.
Qed.

Lemma invariant_returned c i p val :
  invariant key f c → threads c !! i = Some p → returned p = Some val →
  val = f key ∧ stored key f (mem c).
Proof.
  intros (_ & h & Hth & _) Hp Hret. specialize (Hth i p Hp).
  destruct p; simpl in Hret; try done. injection Hret as ->.
  by case_decide.
Qed.

(** *** Every run can be completed, in a bounded number of steps *)

Lemma step_thread_rank p m p' m' :
  step_thread key p m = Some (p', m') → rank p' < rank p.
Proof.
  destruct p; simpl; intros Hst;
    repeat (case_match; simplify_eq/=); simplify_eq/=; try lia.
  destruct (onmiss m); simplify_eq/=. lia.
Qed.

Lemma sum_list_insert_lt (l : list nat) i x y :
  l !! i = Some x → y < x → sum_list (<[i := y]> l) < sum_list l.
Proof.
  revert i. induction l as [|z l IH]; intros [|i] Hi Hlt; simplify_eq/=; [lia|].
  specialize (IH i Hi Hlt). lia.
Qed.

Lemma step_decreases i c c' : step key i c = Some c' → remaining c' < remaining c.
Proof.
  unfold step. intros Hstep.
  destruct (threads c !! i) as [p|] eqn:Hp; [|done]. simpl in Hstep.
  destruct (step_thread key p (mem c)) as [[p' m']|] eqn:Hst; [|done].
  simpl in Hstep. injection Hstep as <-. unfold remaining. simpl.
  rewrite list_fmap_insert. apply sum_list_insert_lt with (rank p).
  - by rewrite list_lookup_fmap, Hp.
  - by eapply step_thread_rank.
Qed.

Lemma moves_bound sched c :
  moves key sched c + remaining (run key sched c) ≤ remaining c.
Proof.
  revert c. induction sched as [|i sched IH]; intros c; [simpl; lia|].
  rewrite run_cons. simpl. destruct (step key i c) as [c'|] eqn:Hstep; simpl.
  - apply step_decreases in Hstep. specialize (IH c'). lia.
  - apply IH.
Qed.

Lemma remaining_start n m : remaining (start n m) = 11 * n.
Proof.
  unfold remaining, start. simpl. rewrite fmap_replicate, sum_list_replicate.
  simpl. lia.
Qed.

Lemma inside_can_step m p :
  onmiss m = Some f → inside_ok key f m p → is_Some (step_thread key p m).
Proof. intros Hon. destruct p; simpl; try done; rewrite ?Hon; eauto. Qed.

Lemma outside_can_step m p :
  cachelock m = false → outside_ok key f m p → returned p = None →
  is_Some (step_thread key p m).
Proof. intros Hfree. destruct p; simpl; try done; rewrite ?Hfree; eauto. Qed.

(** No deadlock: while a thread has not returned, some thread can move. *)
Lemma invariant_progress c :
  invariant key f c → ¬ finished c → ∃ i c', step key i c = Some c'.
Proof.
  intros (Hon & [h|] & Hth & Hlock) Hnot.
  - destruct Hlock as [_ Hlen]. apply lookup_lt_is_Some in Hlen as [p Hp].
    specialize (Hth h p Hp). rewrite decide_True in Hth by done.
    destruct (inside_can_step _ _ Hon Hth) as [[p' m'] Hst].
    exists h. eexists. unfold step. rewrite Hp. simpl. rewrite Hst. done.
  - destruct Hlock as [Hfree _]. unfold finished in Hnot.
    apply not_Forall_Exists in Hnot; [|apply _].
    apply Exists_exists in Hnot as (p & Hin & Hp).
    apply list_elem_of_lookup in Hin as [i Hi].
    specialize (Hth i p Hi). rewrite decide_False in Hth by done.
    assert (returned p = None) as Hret.
    { destruct (returned p) eqn:Hr; [|done]. destruct Hp. eauto. }
    destruct (outside_can_step _ _ Hfree Hth Hret) as [[p' m'] Hst].
    exists i. eexists. unfold step. rewrite Hi. simpl. rewrite Hst. done.
Qed.

Lemma can_finish_within k c :
  is_miss (f key) = false → remaining c < k → invariant key f c →
  ∃ sched, finished (run key sched c).
Proof.
  intros Hf. revert c. induction k as [|k IH]; intros c Hk Hc; [lia|].
  destruct (decide (Forall (λ p, is_Some (returned p)) (threads c))) as [Hfin|Hnot].
  - by exists [].
  - destruct (invariant_progress c Hc Hnot) as (i & c' & Hstep).
    destruct (IH c') as [sched Hsched].
    + apply step_decreases in Hstep. lia.
    + by eapply step_invariant.
    + exists (i :: sched). by rewrite run_cons, Hstep.
Qed.

(** [n] threads call [get(key)] on a cache that lacks [key] and has the
    resolver [f], whose result for [key] is not the empty tuple.  However
    the threads are scheduled: the resolver has run at most once; no two
    threads are inside the [with] block, or inside the resolver, at the
    same time; a thread that has returned has returned [f key], the
    resolver has then run exactly once and its result is in the cache.
    The threads have executed at most [11 * n] statements; while one of
    them has not returned, some thread can move; and the run can be
    completed so that all [n] threads return. *)
Theorem concurrent_gets_resolve_once n m sched :
  is_miss (f key) = false →
  onmiss m = Some f → cache m !! key = None → cachelock m = false → calls m = 0 →
  let c := run key sched (start n m) in
  length (threads c) = n ∧
  calls (mem c) ≤ 1 ∧
  (∀ i j p q, threads c !! i = Some p → threads c !! j = Some q →
              critical p = true → critical q = true → i = j) ∧
  (∀ i j p q, threads c !! i = Some p → threads c !! j = Some q →
              in_resolver p = true → in_resolver q = true → i = j) ∧
  (∀ i p val, threads c !! i = Some p → returned p = Some val →
              val = f key ∧ calls (mem c) = 1 ∧ cache (mem c) !! key = Some (f key)) ∧
  moves key sched (start n m) ≤ 11 * n ∧
  (¬ finished c → ∃ i c', step key i c = Some c') ∧
  ∃ sched', finished (run key sched' c).
Proof.
  intros Hf Hon Hkey Hfree Hcalls c.
  assert (invariant key f c) as Hc.
  { by apply run_keeps_invariant, start_invariant. }
  split_and!.
  - unfold c. rewrite run_length. apply length_replicate.
  - by apply invariant_calls.
  - intros i j p q. by apply invariant_exclusive.
  - intros i j p q Hp Hq Hrp Hrq. apply (invariant_exclusive c i j p q); try done.
    + by destruct p.
    + by destruct q.
  - intros i p val Hp Hret.
    destruct (invariant_returned c i p val Hc Hp Hret) as (-> & ? & ?). done.
  - pose proof (moves_bound sched (start n m)) as Hb.
    rewrite remaining_start in Hb. lia.
  - by apply invariant_progress.
  - by apply (can_finish_within (S (remaining c))); [|lia|].
Qed.
End ThreadsFacts.

Section ThreadsExamples.
Import Threads Example.

Lemma concurrent_gets_resolve_once_witness :
  let c := run "woot" turns (start 2 (fresh_shared ten)) in
  threads c = [Done (PyObj 10%Z); Done (PyObj 10%Z)] ∧ calls (mem c) = 1.
Proof.
  destruct (concurrent_gets_resolve_once "woot" ten 2 (fresh_shared ten) turns)
    as (_ & _ & _ & _ & Hret & _ & _ & _); [reflexivity..|].
  split; [vm_compute; reflexivity|].
  by destruct (Hret 0 (Done (PyObj 10%Z)) (PyObj 10%Z)) as (_ & ? & _).
Defined.

Lemma gets_never_overlap_witness :
  cachelock (fresh_shared nothing) = false ∧
  ∀ i j p q,
    threads (run "woot" (take 13 turns) (start 2 (fresh_shared nothing))) !! i = Some p →
    threads (run "woot" (take 13 turns) (start 2 (fresh_shared nothing))) !! j = Some q →
    in_resolver p = true → in_resolver q = true → i = j.
Proof.
  split; [reflexivity|].
  exact (proj2 (gets_never_overlap "woot" 2 (fresh_shared nothing) (take 13 turns) eq_refl)).
Defined.

Lemma gets_keep_same_keys_witness :
  same_keys (mem (run "woot" turns (start 2 (fresh_shared ten)))).
Proof.
  apply (gets_keep_same_keys "woot" 2 (fresh_shared ten) turns); [reflexivity|].
  intros i p Hp. vm_compute in Hp.
  destruct i as [|[|i]]; simplify_eq; done.
Defined.

(** C3 with a resolver that returns the empty tuple: two threads call
    [get('woot')], taking turns.  Both return [()], and the resolver has
    run twice: the second thread, once it has the lock, reads the stored
    [()] back and takes it for a miss. *)
Theorem concurrent_gets_resolve_twice :
  let c := run "woot" turns (start 2 (fresh_shared nothing)) in
  threads c = [Done PyEmptyTuple; Done PyEmptyTuple] ∧
  cache (mem c) !! "woot" = Some PyEmptyTuple ∧
  calls (mem c) = 2.
Proof. vm_compute. by split_and!. Qed.
End ThreadsExamples.

(** * Properties of [synapse.compat] *)

Section CompatFacts.
Import compat.
Local Open Scope Z_scope.
Implicit Types (byts : list Byte.byte) (valu size : Z).

Lemma Z_of_byte_bounds (b : Byte.byte) : 0 ≤ Z_of_byte b < 256.
Proof. unfold Z_of_byte. pose proof (Byte.to_N_bounded b). lia. Qed.

Lemma byte_of_Z_of_byte (b : Byte.byte) : byte_of_Z (Z_of_byte b) = b.
Proof. unfold byte_of_Z, Z_of_byte. by rewrite N2Z.id, Byte.of_to_N. Qed.

Lemma Z_of_byte_of_Z (z : Z) : 0 ≤ z < 256 → Z_of_byte (byte_of_Z z) = z.
Proof.
  intros Hz. unfold byte_of_Z, Z_of_byte.
  destruct (Byte.of_N (Z.to_N z)) as [b|] eqn:Hb; simpl.
  - apply Byte.to_of_N in Hb. rewrite Hb. lia.
  - apply Byte.of_N_None_iff in Hb. lia.
Qed.

Lemma length_little_endian (n : nat) valu : length (little_endian n valu) = n.
Proof. revert valu. induction n as [|n IH]; intros valu; simpl; [done|]. by rewrite IH. Qed.

Lemma from_little_endian_bounds byts :
  0 ≤ from_little_endian byts < 256 ^ Z.of_nat (length byts).
Proof.
  induction byts as [|b byts IH]; [simpl; lia|].
  change (from_little_endian (b :: byts))
    with (Z_of_byte b + 256 * from_little_endian byts).
  rewrite length_cons, Nat2Z.inj_succ, Z.pow_succ_r by lia.
  pose proof (Z_of_byte_bounds b). lia.
Qed.

Lemma from_little_endian_mod (n : nat) valu :
  from_little_endian (little_endian n valu) = valu mod 256 ^ Z.of_nat n.
Proof.
  revert valu. induction n as [|n IH]; intros valu.
  - simpl. by rewrite Z.mod_1_r.
  - change (from_little_endian (little_endian (S n) valu))
      with (Z_of_byte (byte_of_Z (valu mod 256)) +
            256 * from_little_endian (little_endian n (valu / 256))).
    rewrite IH, Z_of_byte_of_Z by (apply Z.mod_pos_bound; lia).
    rewrite Nat2Z.inj_succ, Z.pow_succ_r by lia.
    rewrite Z.rem_mul_r by lia. done.
Qed.

Lemma little_endian_from byts :
  little_endian (length byts) (from_little_endian byts) = byts.
Proof.
  induction byts as [|b byts IH]; [done|].
  change (from_little_endian (b :: byts))
    with (Z_of_byte b + 256 * from_little_endian byts).
  pose proof (Z_of_byte_bounds b) as Hb. cbn [length little_endian]. f_equal.
  - rewrite (Z.mul_comm 256), Z.mod_add, Z.mod_small by lia.
    apply byte_of_Z_of_byte.
  - rewrite (Z.mul_comm 256), Z.div_add, Z.div_small by lia.
    apply IH.
Qed.

Lemma py3_to_bytes_ok valu size :
  0 ≤ size → 0 ≤ valu < 256 ^ size →
  Py3.to_bytes valu size = Ok (little_endian (Z.to_nat size) valu).
Proof.
  intros Hsize Hvalu. unfold Py3.to_bytes.
  rewrite (proj2 (Z.ltb_ge size 0)), (proj2 (Z.ltb_ge valu 0)) by lia.
  by rewrite (proj2 (Z.leb_gt (256 ^ size) valu)) by lia.
Qed.

Lemma py3_to_bytes_inv valu size byts :
  Py3.to_bytes valu size = Ok byts →
  0 ≤ size ∧ 0 ≤ valu < 256 ^ size ∧ byts = little_endian (Z.to_nat size) valu.
Proof.
  unfold Py3.to_bytes. intros Hok.
  destruct (Z.ltb_spec size 0); [done|].
  destruct (Z.ltb_spec valu 0); [done|].
  destruct (Z.leb_spec (256 ^ size) valu); [done|].
  split_and!; try lia. congruence.
Qed.

(** [to_int(to_bytes(valu, size))] is [valu]: a value that fits in [size]
    bytes is encoded in exactly [size] bytes and read back unchanged
    (Python 3 branch). *)
Theorem to_int_to_bytes valu size :
  0 ≤ size → 0 ≤ valu < 256 ^ size →
  ∃ byts, Py3.to_bytes valu size = Ok byts ∧
          Z.of_nat (length byts) = size ∧ Py3.to_int byts = valu.
Proof.
  intros Hsize Hvalu. eexists. split; [by apply py3_to_bytes_ok|].
  rewrite length_little_endian. split; [lia|].
  unfold Py3.to_int. rewrite from_little_endian_mod, Z2Nat.id by lia.
  by apply Z.mod_small.
Qed.

(** [to_bytes(to_int(byts), len(byts))] is [byts], for every byte string
    (Python 3 branch): [to_bytes] never raises on what [to_int] returns. *)
Theorem to_bytes_to_int byts :
  Py3.to_bytes (Py3.to_int byts) (Z.of_nat (length byts)) = Ok byts.
Proof.
  pose proof (from_little_endian_bounds byts) as Hb. unfold Py3.to_int.
  rewrite py3_to_bytes_ok by lia. by rewrite Nat2Z.id, little_endian_from.
Qed.

(** [to_bytes] succeeds exactly on a non-negative size and a value in
    [0, 256^size); a negative size raises [ValueError], a value out of
    range [OverflowError] (Python 3 branch). *)
Theorem to_bytes_raises valu size :
  ((∃ byts, Py3.to_bytes valu size = Ok byts) ↔ 0 ≤ size ∧ 0 ≤ valu < 256 ^ size) ∧
  (Py3.to_bytes valu size = Raise ValueError ↔ size < 0) ∧
  (Py3.to_bytes valu size = Raise OverflowError ↔
   0 ≤ size ∧ (valu < 0 ∨ 256 ^ size ≤ valu)).
Proof.
  split_and!.
  - split.
    + intros [byts Hok]. apply py3_to_bytes_inv in Hok. tauto.
    + intros [Hsize Hvalu]. eexists. by apply py3_to_bytes_ok.
  - unfold Py3.to_bytes. destruct (Z.ltb_spec size 0); [done|].
    destruct (Z.ltb_spec valu 0); [split; [done|lia]|].
    destruct (Z.leb_spec (256 ^ size) valu); split; (done || lia).
  - unfold Py3.to_bytes. destruct (Z.ltb_spec size 0); [split; [done|lia]|].
    destruct (Z.ltb_spec valu 0); [split; [lia|done]|].
    destruct (Z.leb_spec (256 ^ size) valu); split; (done || lia).
Qed.

(** Two byte strings of the same length that [to_int] reads as the same
    number are the same string; a trailing zero byte does not change the
    number. *)
Theorem to_int_injective byts1 byts2 :
  (length byts1 = length byts2 → Py3.to_int byts1 = Py3.to_int byts2 → byts1 = byts2) ∧
  Py3.to_int (byts1 ++ [Byte.x00]) = Py3.to_int byts1.
Proof.
  split.
  - intros Hlen Heq. unfold Py3.to_int in Heq.
    rewrite <- (little_endian_from byts1), <- (little_endian_from byts2).
    by rewrite Hlen, Heq.
  - unfold Py3.to_int. induction byts1 as [|b byts1 IH]; [done|].
    change (from_little_endian ((b :: byts1) ++ [Byte.x00]))
      with (Z_of_byte b + 256 * from_little_endian (byts1 ++ [Byte.x00])).
    by rewrite IH.
Qed.

Lemma fmts_Some size f : Py2.fmts size = Some f ↔ size = Z.of_nat (Py2.calcsize f).
Proof.
  unfold Py2.fmts.
  destruct (Z.eqb_spec size 1); [subst size; destruct f; simpl; split; intros; first [done | lia]|].
  destruct (Z.eqb_spec size 2); [subst size; destruct f; simpl; split; intros; first [done | lia]|].
  destruct (Z.eqb_spec size 4); [subst size; destruct f; simpl; split; intros; first [done | lia]|].
  destruct (Z.eqb_spec size 8); [subst size; destruct f; simpl; split; intros; first [done | lia]|].
  split; [done|]. destruct f; simpl; lia.
Qed.

Lemma fmts_is_Some size :
  is_Some (Py2.fmts size) ↔ size = 1 ∨ size = 2 ∨ size = 4 ∨ size = 8.
Proof.
  split.
  - intros [f Hf%fmts_Some]. destruct f; simpl in Hf; lia.
  - unfold Py2.fmts. intros [Hs|[Hs|[Hs|Hs]]]; subst size; simpl; eauto.
Qed.

(** The Python 2 branch encodes as the Python 3 branch does, on the four
    sizes of [fmts] only: [to_bytes] returns [byts] exactly when the size
    is 1, 2, 4 or 8 and the Python 3 [to_bytes] returns [byts]. *)
Theorem py2_to_bytes_agrees valu size byts :
  Py2.to_bytes valu size = Ok byts ↔
  (size = 1 ∨ size = 2 ∨ size = 4 ∨ size = 8) ∧ Py3.to_bytes valu size = Ok byts.
Proof.
  rewrite <- fmts_is_Some. unfold Py2.to_bytes.
  destruct (Py2.fmts size) as [f|] eqn:Hf; cycle 1.
  { split; [done|]. by intros [[? ?] _]. }
  apply fmts_Some in Hf. subst size. unfold Py2.struct_pack.
  destruct (Z.leb_spec 0 valu), (Z.ltb_spec valu (256 ^ Z.of_nat (Py2.calcsize f))); simpl.
  - rewrite py3_to_bytes_ok, Nat2Z.id by lia. split; [by eauto|by intros [_ ?]].
  - split; [done|]. intros [_ Hok]. apply py3_to_bytes_inv in Hok. lia.
  - split; [done|]. intros [_ Hok]. apply py3_to_bytes_inv in Hok. lia.
  - split; [done|]. intros [_ Hok]. apply py3_to_bytes_inv in Hok. lia.
Qed.

(** The Python 2 [to_int] reads byte strings of length 1, 2, 4 and 8 as
    the Python 3 [to_int] does, and raises on every other length. *)
Theorem py2_to_int_agrees byts :
  let n := Z.of_nat (length byts) in
  (n = 1 ∨ n = 2 ∨ n = 4 ∨ n = 8 → Py2.to_int byts = Ok (Py3.to_int byts)) ∧
  (¬ (n = 1 ∨ n = 2 ∨ n = 4 ∨ n = 8) → Py2.to_int byts = Raise Unsupported).
Proof.
  intros n. unfold Py2.to_int. fold n. rewrite <- fmts_is_Some. split.
  - intros [f Hf]. rewrite Hf. apply fmts_Some in Hf. unfold Py2.struct_unpack.
    rewrite decide_True by lia. done.
  - intros Hnone. by destruct (Py2.fmts n); [destruct Hnone; eauto|].
Qed.

(** Round trip in the Python 2 branch: what [to_bytes] returns, [to_int]
    reads back as the value, and what [to_int] reads, [to_bytes] encodes
    as the same bytes. *)
Theorem py2_round_trip valu size byts :
  (Py2.to_bytes valu size = Ok byts → Py2.to_int byts = Ok valu) ∧
  (Py2.to_int byts = Ok valu → Py2.to_bytes valu (Z.of_nat (length byts)) = Ok byts).
Proof.
  split.
  - unfold Py2.to_bytes, Py2.to_int. intros Hok.
    destruct (Py2.fmts size) as [f|] eqn:Hf; [|done]. unfold Py2.struct_pack in Hok.
    destruct (Z.leb_spec 0 valu), (Z.ltb_spec valu (256 ^ Z.of_nat (Py2.calcsize f)));
      simplify_eq/=.
    rewrite length_little_endian. apply fmts_Some in Hf as ->.
    rewrite (proj2 (fmts_Some _ f) eq_refl). unfold Py2.struct_unpack.
    rewrite length_little_endian, decide_True by done.
    rewrite from_little_endian_mod. f_equal. by apply Z.mod_small.
  - unfold Py2.to_bytes, Py2.to_int. intros Hok.
    destruct (Py2.fmts (Z.of_nat (length byts))) as [f|] eqn:Hf; [|done].
    unfold Py2.struct_unpack in Hok. apply fmts_Some in Hf.
    destruct (decide (length byts = Py2.calcsize f)) as [Hlen|]; [|done].
    injection Hok as <-. unfold Py2.struct_pack.
    pose proof (from_little_endian_bounds byts) as Hb. rewrite Hlen in Hb.
    rewrite (proj2 (Z.leb_le _ _)), (proj2 (Z.ltb_lt _ _)) by lia. simpl.
    by rewrite <- Hlen, little_endian_from.
Qed.
End CompatFacts.

(** * Properties of [OnDem] *)

Section OnDemFacts.
Context {K : Type} {eqK : EqDecision K} {cntK : Countable K} {O : Type}.
Import OnDem.
Implicit Types (s : @state K _ _ O) (name keyn : K) (a : @access K O)
  (l : list (@access K O)) (attrs : list (@attr K O)).

Lemma ondem_run_cons a l s : run (a :: l) s = run l (exec a s).
Proof. reflexivity. Qed.

Lemma ondem_run_app l1 l2 s : run (l1 ++ l2) s = run l2 (run l1 s).
Proof. unfold run. by rewrite foldl_app. Qed.

Lemma ondem_get_present name s val :
  items s !! name = Some val → get name s = Ok (val, s).
Proof. intros Hname. unfold get, __getitem__. by rewrite Hname. Qed.

Lemma ondem_get_unregistered name s :
  items s !! name = None → _key_funcs s !! name = None →
  get name s = Raise (KeyError name).
Proof. intros Hi Hf. unfold get, __getitem__, __missing__. by rewrite Hi, Hf. Qed.

Lemma ondem_get_registered name s func :
  items s !! name = None → _key_funcs s !! name = Some func →
  get name s =
  Ok (func (), mkState (_key_funcs s) (<[name := func ()]> (items s)) (called s ++ [name])).
Proof. intros Hi Hf. unfold get, __getitem__, __missing__. by rewrite Hi, Hf. Qed.

(** What [exec] does to the three fields. *)
Lemma ondem_exec_cases a s :
  (exec a s = s) ∨
  (∃ name func, a = Get name ∧ items s !! name = None ∧
                _key_funcs s !! name = Some func ∧
                exec a s = mkState (_key_funcs s) (<[name := func ()]> (items s))
                                   (called s ++ [name])) ∨
  (∃ name func, a = Add name func ∧
                exec a s = mkState (<[name := λ _, func ()]> (_key_funcs s))
                                   (items s) (called s)).
Proof.
  destruct a as [name|name func].
  - unfold exec, get, __getitem__, __missing__.
    destruct (items s !! name) as [val|] eqn:Hi; [by left|].
    destruct (_key_funcs s !! name) as [func|] eqn:Hf; [|by left].
    right. left. by exists name, func.
  - right. right. by exists name, func.
Qed.

Lemma ondem_calls_snoc name k (funcs : gmap K (unit → pyval O)) (d : gmap K (pyval O)) s :
  calls name (mkState funcs d (called s ++ [k])) =
  calls name s + (if decide (k = name) then 1 else 0).
Proof.
  unfold calls. simpl. rewrite filter_app, length_app, filter_cons, filter_nil.
  by case_decide.
Qed.

Lemma ondem_exec_items a s name val :
  items s !! name = Some val → items (exec a s) !! name = Some val.
Proof.
  intros Hname.
  destruct (ondem_exec_cases a s) as [->|[(k & func & _ & Hk & _ & ->)|(k & func & _ & ->)]];
    [done| |done].
  simpl. rewrite lookup_insert_ne; [done|]. intros ->. congruence.
Qed.

Lemma ondem_run_items l s name val :
  items s !! name = Some val → items (run l s) !! name = Some val.
Proof.
  revert s. induction l as [|a l IH]; intros s Hs; [done|].
  rewrite ondem_run_cons. by apply IH, ondem_exec_items.
Qed.

Lemma ondem_exec_once a s name :
  calls name s ≤ 1 ∧ (0 < calls name s → is_Some (items s !! name)) →
  calls name (exec a s) ≤ 1 ∧
  (0 < calls name (exec a s) → is_Some (items (exec a s) !! name)).
Proof.
  intros [Hle Hin].
  destruct (ondem_exec_cases a s) as [->|[(k & func & _ & Hk & _ & ->)|(k & func & _ & ->)]];
    [done| |done].
  rewrite ondem_calls_snoc. simpl. destruct (decide (k = name)) as [->|Hne].
  - rewrite lookup_insert_eq.
    assert (calls name s = 0) as ->.
    { destruct (calls name s) eqn:Hn; [done|]. destruct Hin as [? ?]; [lia|congruence]. }
    split; [lia|eauto].
  - rewrite lookup_insert_ne by done. rewrite Nat.add_0_r. done.
Qed.

Lemma ondem_run_once l s name :
  calls name s ≤ 1 ∧ (0 < calls name s → is_Some (items s !! name)) →
  calls name (run l s) ≤ 1 ∧ (0 < calls name (run l s) → is_Some (items (run l s) !! name)).
Proof.
  revert s. induction l as [|a l IH]; intros s Hs; [done|].
  rewrite ondem_run_cons. by apply IH, ondem_exec_once.
Qed.

(** Whatever is registered, added and accessed, and in whatever order, the
    function of a name is called at most once. *)
Theorem ondem_called_at_most_once attrs l name :
  calls name (run l (__init__ attrs)) ≤ 1.
Proof.
  apply ondem_run_once. unfold calls. simpl. split; lia.
Qed.

(** Once [get(name)] has returned a value, every later [get(name)] returns
    that value and changes nothing, whatever is accessed or added in
    between: an [add] for a name that was already computed is ignored. *)
Theorem ondem_value_is_pinned name s val s1 l :
  get name s = Ok (val, s1) →
  get name (run l s1) = Ok (val, run l s1) ∧ calls name (run l s1) = calls name s1.
Proof.
  intros Hget.
  assert (items s1 !! name = Some val) as Hs1.
  { unfold get, __getitem__, __missing__ in Hget.
    destruct (items s !! name) as [v|] eqn:Hi; [by simplify_eq|].
    destruct (_key_funcs s !! name); simplify_eq. simpl. by rewrite lookup_insert_eq. }
  split; [by apply ondem_get_present, ondem_run_items|].
  clear Hget. revert s1 Hs1. induction l as [|a l IH]; intros s1 Hs1; [done|].
  rewrite ondem_run_cons, IH by by apply ondem_exec_items.
  destruct (ondem_exec_cases a s1)
    as [->|[(k & func & _ & Hk & _ & ->)|(k & func & _ & ->)]]; [done| |done].
  rewrite ondem_calls_snoc. rewrite decide_False; [lia|]. intros ->. congruence.
Qed.

Lemma ondem_init_funcs attrs keyn :
  _key_funcs (__init__ attrs) !! keyn =
  call <$> last (filter (λ x : attr, _keycache_name x = Some keyn) attrs).
Proof.
  unfold __init__. simpl.
  induction attrs as [|x attrs IH] using rev_ind; [done|].
  rewrite foldl_app, filter_app, filter_cons, filter_nil. simpl.
  destruct (_keycache_name x) as [k|] eqn:Hk.
  - destruct (decide (k = keyn)) as [->|Hne].
    + rewrite lookup_insert_eq, decide_True by done. by rewrite last_snoc.
    + rewrite lookup_insert_ne by done. rewrite decide_False by congruence.
      by rewrite app_nil_r.
  - rewrite decide_False by done. by rewrite app_nil_r.
Qed.

(** On a new [OnDem], [get(name)] calls the attribute tagged with [name]
    that comes last in [dir(self)], stores what it returns and returns it;
    with no attribute tagged [name] it raises [KeyError]. *)
Theorem ondem_get_after_init attrs name :
  get name (__init__ attrs) =
  match last (filter (λ x : attr, _keycache_name x = Some name) attrs) with
  | Some x =>
      Ok (call x (),
          mkState (_key_funcs (__init__ attrs)) {[name := call x ()]} [name])
  | None => Raise (KeyError name)
  end.
Proof.
  pose proof (ondem_init_funcs attrs name) as Hf.
  destruct (last _) as [x|].
  - rewrite (ondem_get_registered name (__init__ attrs) (call x)); [done|done|exact Hf].
  - apply ondem_get_unregistered; [done|exact Hf].
Qed.

Lemma ondem_exec_funcs a s name :
  (∀ func, a ≠ Add name func) → _key_funcs (exec a s) !! name = _key_funcs s !! name.
Proof.
  intros Ha.
  destruct (ondem_exec_cases a s)
    as [->|[(k & func & _ & Hk & _ & ->)|(k & func & -> & ->)]]; [done..|].
  simpl. rewrite lookup_insert_ne; [done|]. intros ->. by apply (Ha func).
Qed.

Lemma ondem_exec_items_None a s name :
  _key_funcs s !! name = None → items s !! name = None →
  items (exec a s) !! name = None.
Proof.
  intros Hf Hi.
  destruct (ondem_exec_cases a s)
    as [->|[(k & func & _ & Hk & Hkf & ->)|(k & func & _ & ->)]]; [done| |done].
  simpl. rewrite lookup_insert_ne; [done|]. intros ->. congruence.
Qed.

(** A name that no attribute is tagged with and that is never added raises
    [KeyError] however late it is asked for, and asking changes nothing. *)
Theorem ondem_unregistered_raises attrs l name :
  Forall (λ x : attr, _keycache_name x ≠ Some name) attrs →
  (∀ func, Add name func ∉ l) →
  get name (run l (__init__ attrs)) = Raise (KeyError name) ∧
  exec (Get name) (run l (__init__ attrs)) = run l (__init__ attrs).
Proof.
  intros Hattrs Hl.
  assert (_key_funcs (__init__ attrs) !! name = None) as Hf.
  { rewrite ondem_init_funcs.
    destruct (last _) as [x|] eqn:Ha; [|done]. apply last_Some_elem_of in Ha.
    apply list_elem_of_filter in Ha as [Ha Hin].
    by apply (proj1 (Forall_forall _ _) Hattrs) in Hin. }
  assert (items (__init__ attrs) !! name = None) as Hi by done.
  revert Hf Hi. generalize (__init__ attrs). intros s Hf Hi.
  assert (_key_funcs (run l s) !! name = None ∧ items (run l s) !! name = None)
    as [Hf' Hi'].
  { revert s Hf Hi. induction l as [|a l IH]; intros s Hf Hi; [done|].
    rewrite ondem_run_cons. apply IH.
    - intros func Hin. apply (Hl func). by right.
    - rewrite ondem_exec_funcs; [done|]. intros func ->. apply (Hl func). by left.
    - by apply ondem_exec_items_None. }
  pose proof (ondem_get_unregistered _ _ Hi' Hf') as Hget.
  split; [done|]. unfold exec. by rewrite Hget.
Qed.
End OnDemFacts.

(** * More properties of [Cache] *)

Section CacheMore.
Context {K : Type} {eqK : EqDecision K} {cntK : Countable K} {O : Type}.
Import Cache.
Implicit Types (s : @state K _ _ O) (key k : K) (l : list K) (val v : pyval O).

(** [len(cache)] is the number of keys and of values; [put] adds one
    for a new key and none for a key that is there, [pop] takes one
    away for a key that is there and none otherwise, and [clear] and the
    shutdown handler leave none. *)
Theorem len_counts_entries key val s :
  length (keys s) = __len__ s ∧ length (values s) = __len__ s ∧
  __len__ (put key val s) =
    (if cache s !! key is Some _ then __len__ s else S (__len__ s)) ∧
  __len__ (pop key s).2 =
    (if cache s !! key is Some _ then pred (__len__ s) else __len__ s) ∧
  __len__ (clear s) = 0 ∧ __len__ (_onCacheFini s) = 0.
Proof.
  unfold __len__, keys, values. rewrite !length_fmap, length_map_to_list.
  split_and!; try done.
  - unfold put. simpl. rewrite map_size_insert. by destruct (cache s !! key).
  - unfold pop. simpl. rewrite map_size_delete. by destruct (cache s !! key).
  - destruct (onCacheFini_pops_all_aux s) as [-> _]. apply map_size_empty.
Qed.

(** [pop] undoes [put] for a key that was not there: it returns the value
    that was put and both maps are as before.  A second [pop] returns
    [None] and leaves the maps as the first one left them. *)
Theorem pop_undoes_put key val s :
  (cache s !! key = None → lasthit s !! key = None →
   (pop key (put key val s)).1 = val ∧
   cache (pop key (put key val s)).2 = cache s ∧
   lasthit (pop key (put key val s)).2 = lasthit s) ∧
  (pop key (pop key s).2).1 = PyNone ∧
  cache (pop key (pop key s).2).2 = cache (pop key s).2 ∧
  lasthit (pop key (pop key s).2).2 = lasthit (pop key s).2.
Proof.
  unfold pop, put, dict_get. simpl. split_and!.
  - intros Hc Hl. rewrite lookup_insert_eq. simpl.
    rewrite !delete_insert_eq. by rewrite !delete_id.
  - by rewrite lookup_delete_eq.
  - apply delete_id, lookup_delete_eq.
  - apply delete_id, lookup_delete_eq.
Qed.

Lemma get_maps key s :
  cache (get key s).2 = cache s ∧ lasthit (get key s).2 = <[key := now s]> (lasthit s) ∨
  (get key s).2 = s ∨
  ∃ f, onmiss s = Some f ∧ is_miss (dict_get (cache s) key miss) = true ∧
       (get key s).1 = f key ∧
       cache (get key s).2 = <[key := f key]> (cache s) ∧
       lasthit (get key s).2 = <[key := now s]> (lasthit s) ∧
       trace (get key s).2 = trace s ++ [Acquire; OnMiss key; Release].
Proof.
  unfold get. destruct (is_miss (dict_get (cache s) key miss)) eqn:Hmiss; simpl.
  - destruct (onmiss s) as [f|] eqn:Hon; [|by right; left].
    right. right. exists f. simpl. rewrite Hmiss. simpl.
    split_and!; try done. by rewrite <- !app_assoc.
  - by left.
Qed.

(** [put], [get] and [pop] of a key leave the entry and the time stamp of
    every other key as they were. *)
Theorem other_keys_untouched key k val s :
  k ≠ key →
  cache (put key val s) !! k = cache s !! k ∧
  lasthit (put key val s) !! k = lasthit s !! k ∧
  cache (get key s).2 !! k = cache s !! k ∧
  lasthit (get key s).2 !! k = lasthit s !! k ∧
  cache (pop key s).2 !! k = cache s !! k ∧
  lasthit (pop key s).2 !! k = lasthit s !! k.
Proof.
  intros Hne. unfold put, pop. simpl.
  rewrite !lookup_insert_ne, !lookup_delete_ne by done. split_and!; try done.
  - destruct (get_maps key s) as [[-> _]|[->|(f & _ & _ & _ & -> & _)]]; try done.
    by rewrite lookup_insert_ne.
  - destruct (get_maps key s) as [[_ ->]|[->|(f & _ & _ & _ & _ & -> & _)]]; try done;
      by rewrite lookup_insert_ne.
Qed.

(** [get] publishes no event and calls the scheduler for nothing, on a
    hit and on a miss, with a resolver or without. *)
Theorem get_publishes_nothing key s :
  fired (get key s).2 = fired s ∧
  scheduled (get key s).2 = scheduled s ∧
  cancelled (get key s).2 = cancelled s.
Proof.
  unfold fired, scheduled, cancelled, get.
  destruct (negb _); [done|]. destruct (onmiss s); [|done].
  destruct (is_miss _); simpl; rewrite !omap_app; simpl; by rewrite !app_nil_r.
Qed.

Lemma reschedule_frame s :
  maxtime (reschedule s) = maxtime s ∧ now (reschedule s) = now s ∧
  isfini (reschedule s) = isfini s ∧ onmiss (reschedule s) = onmiss s ∧
  fired (reschedule s) = fired s.
Proof.
  unfold reschedule, fired.
  destruct (maxtime s) eqn:Hm, (isfini s) eqn:Hf; simpl; rewrite ?Hm, ?Hf;
    split_and!; try done.
  rewrite omap_app. simpl. by rewrite app_nil_r.
Qed.

Lemma sweep_unfold s m :
  maxtime s = Some m →
  _checkCacheTimes s = Some (reschedule (pop_each (hits (now s - m) s) s)).
Proof. intros Hm. unfold _checkCacheTimes. by rewrite Hm. Qed.

(** A second sweep at the same clock value pops nothing: the entries
    that survive a sweep are not swept by the next one unless time passes,
    and it publishes no event. *)
Theorem sweep_twice_pops_once s m :
  maxtime s = Some m →
  ∃ s1 s2, _checkCacheTimes s = Some s1 ∧ _checkCacheTimes s1 = Some s2 ∧
           cache s2 = cache s1 ∧ lasthit s2 = lasthit s1 ∧ fired s2 = fired s1.
Proof.
  intros Hm. rewrite (sweep_unfold s m Hm).
  set (cutoff := (now s - m)%float). set (s0 := pop_each (hits cutoff s) s).
  destruct (pop_each_frame (hits cutoff s) s) as (_ & _ & Hm0 & _ & Hnow0).
  fold s0 in Hm0, Hnow0.
  destruct (reschedule_frame s0) as (Hm1 & Hnow1 & _ & _ & _).
  destruct (reschedule_maps s0) as [Hc1 Hl1].
  exists (reschedule s0). eexists. split; [done|].
  rewrite (sweep_unfold (reschedule s0) m) by by rewrite Hm1, Hm0.
  rewrite Hnow1, Hnow0. fold cutoff.
  assert (hits cutoff (reschedule s0) = []) as ->.
  { apply elem_of_nil_inv. intros key (t & Ht & Hlt)%hits_spec.
    rewrite Hl1 in Ht. unfold s0 in Ht. rewrite pop_each_lasthit in Ht.
    case_decide as Hin; [done|]. apply Hin, hits_spec. eauto. }
  rewrite pop_each_nil. split; [done|].
  destruct (reschedule_maps (reschedule s0)) as [-> ->].
  destruct (reschedule_frame (reschedule s0)) as (_ & _ & _ & _ & ->). done.
Qed.

(** Time to live: an entry put at clock value [now s] and not touched
    since is removed by the sweep that runs at clock value [t] exactly
    when [now s < t - maxtime]; otherwise it stays, with its value and
    its time stamp. *)
Theorem put_then_sweep key val s m t :
  maxtime s = Some m →
  ∃ s', _checkCacheTimes (set_now t (put key val s)) = Some s' ∧
        cache s' !! key =
          (if PrimFloat.ltb (now s) (t - m) then None else Some val) ∧
        lasthit s' !! key =
          (if PrimFloat.ltb (now s) (t - m) then None else Some (now s)).
Proof.
  intros Hm. set (s1 := set_now t (put key val s)).
  rewrite (sweep_unfold s1 m Hm). eexists. split; [done|].
  change (now s1) with t. set (cutoff := (t - m)%float).
  destruct (reschedule_maps (pop_each (hits cutoff s1) s1)) as [-> ->].
  rewrite pop_each_cache, pop_each_lasthit.
  assert (lasthit s1 !! key = Some (now s)) as Hl by apply lookup_insert_eq.
  assert (cache s1 !! key = Some val) as Hc by apply lookup_insert_eq.
  rewrite Hl, Hc. destruct (PrimFloat.ltb (now s) cutoff) eqn:Hlt.
  - rewrite !decide_True; [done|apply hits_spec; eauto..].
  - assert (key ∉ hits cutoff s1) as Hout.
    { intros (t' & Ht' & Hlt')%hits_spec. congruence. }
    by rewrite !decide_False.
Qed.

(** *** Each key is resolved once *)

Lemma log_resolved (a : @action K O) s :
  resolved (log a s) = resolved s ++ match a with OnMiss key => [key] | _ => [] end.
Proof. unfold resolved, log. simpl. rewrite omap_app. by destruct a. Qed.

Lemma get_caching key s : caching s → caching (get key s).2.
Proof.
  intros Hs. pose proof Hs as (Hf & Hnd & Hres). unfold get.
  destruct (is_miss (dict_get (cache s) key miss)) eqn:Hmiss; simpl; [|exact Hs].
  destruct (onmiss s) as [f|] eqn:Hon; [|exact Hs]. simpl. rewrite Hmiss. simpl.
  assert (key ∉ resolved s) as Hkey.
  { intros (val & Hval & Hnot)%Hres. unfold dict_get in Hmiss. rewrite Hval in Hmiss.
    simpl in Hmiss. congruence. }
  split_and!.
  - intros f' k. simpl. rewrite Hon. eauto.
  - rewrite log_resolved. simpl. rewrite app_nil_r.
    change (resolved (set_lasthit _ (set_cache _ (log (OnMiss key) (log Acquire s)))))
      with (resolved (log (OnMiss key) (log Acquire s))).
    rewrite !log_resolved. simpl. rewrite app_nil_r.
    apply NoDup_app. split_and!; [done| |apply NoDup_singleton].
    by intros k Hk ->%list_elem_of_singleton.
  - intros k. rewrite log_resolved. simpl. rewrite app_nil_r.
    change (resolved (set_lasthit _ (set_cache _ (log (OnMiss key) (log Acquire s)))))
      with (resolved (log (OnMiss key) (log Acquire s))).
    rewrite !log_resolved. simpl. rewrite app_nil_r.
    intros [Hk| ->%list_elem_of_singleton]%elem_of_app.
    + destruct (decide (k = key)) as [->|Hne]; [done|].
      rewrite lookup_insert_ne by done. by apply Hres.
    + rewrite lookup_insert_eq. eauto.
Qed.

Lemma put_caching key val s : is_miss val = false → caching s → caching (put key val s).
Proof.
  intros Hval (Hf & Hnd & Hres). unfold put, fire.
  split_and!; [done|by rewrite log_resolved, app_nil_r|].
  intros k. rewrite log_resolved, app_nil_r. simpl. intros Hk.
  destruct (decide (k = key)) as [->|Hne].
  - rewrite lookup_insert_eq. eauto.
  - rewrite lookup_insert_ne by done. by apply Hres.
Qed.

Lemma exec_caching (o : @Run.op K O) s s' :
  Run.keeps o → caching s → Run.exec o s = Some s' → caching s'.
Proof.
  intros Ho Hs Hexec. destruct o; simpl in Ho; try done;
    unfold Run.exec in Hexec; injection Hexec as <-.
  - by apply put_caching.
  - by apply get_caching.
  - destruct Hs as (Hf & Hnd & Hres). unfold flush, fire.
    split_and!; [done|by rewrite log_resolved, app_nil_r|].
    intros k. rewrite log_resolved, app_nil_r. apply Hres.
  - destruct Hs as (_ & Hnd & Hres). split_and!; [|done..].
    intros f' k [= <-]. apply Ho.
  - done.
Qed.

Lemma run_caching (ops : list (@Run.op K O)) s s' :
  Forall Run.keeps ops → caching s → Run.run ops s = Some s' → caching s'.
Proof.
  intros Hops. revert s. induction Hops as [|o ops Ho Hops IH]; intros s Hs Hrun.
  - simpl in Hrun. by simplify_eq.
  - simpl in Hrun. destruct (Run.exec o s) as [s1|] eqn:Hexec; [|done].
    simpl in Hrun. eauto using exec_caching.
Qed.

Lemma init_caching mt om t s :
  (∀ f key, om = Some f → is_miss (f key) = false) →
  __init__ mt om t = Some s → caching s.
Proof.
  intros Hom. unfold __init__.
  set (s0 := mkState om ∅ ∅ None mt false t []).
  assert (caching s0) as Hs0.
  { split_and!; [done|apply NoDup_nil_2|]. by intros key ?%elem_of_nil. }
  destruct mt as [m|]; [|by intros [= <-]].
  rewrite (sweep_unfold s0 m eq_refl).
  assert (hits (now s0 - m) s0 = []) as ->.
  { unfold hits, s0. cbn [lasthit]. by rewrite map_to_list_empty. }
  rewrite pop_each_nil. intros [= <-]. unfold reschedule.
  change (maxtime s0) with (Some m). change (isfini s0) with false. cbn [negb].
  destruct Hs0 as (Hf & Hnd & Hres). unfold caching.
  rewrite log_resolved, app_nil_r. split_and!; done.
Qed.

(** Used from one thread, with values and resolver results that are
    never the empty tuple, and as long as nothing is removed ([put],
    [get], [flush], [setOnMiss] and the clock only): the resolver is
    called at most once for each key, and what it returned is still
    cached, so a later [get] is a hit. *)
Theorem resolved_at_most_once mt om t (ops : list (@Run.op K O)) s0 s :
  (∀ f key, om = Some f → is_miss (f key) = false) →
  Forall Run.keeps ops →
  __init__ mt om t = Some s0 → Run.run ops s0 = Some s →
  NoDup (resolved s) ∧
  ∀ key, key ∈ resolved s →
         ∃ val, cache s !! key = Some val ∧ (get key s).1 = val ∧
                resolved (get key s).2 = resolved s.
Proof.
  intros Hom Hops Hinit Hrun.
  assert (caching s) as (Hf & Hnd & Hres).
  { eapply run_caching; [done| |done]. by eapply init_caching. }
  split; [done|]. intros key (val & Hval & Hnot)%Hres. exists val.
  split; [done|]. unfold get, dict_get. rewrite Hval. simpl. by rewrite Hnot.
Qed.

(** *** A cache that is only read returns what its resolver returns *)







End CacheMore.

(** ** KeyCache: more of its behaviour *)

Section KeyCacheMore.
Context {K : Type} {eqK : EqDecision K} {cntK : Countable K} {O : Type}.
Import KeyCache.
Implicit Types (s : @state K _ _ O) (key k : K) (a : @access K O)
  (l : list (@access K O)).

(** [put(key, val)] then [get(key)] returns [val] for every value,
    [None] and the empty tuple included, and [lookmeth] is not called. *)
Theorem keycache_put_get key val s :
  get key (put key val s) = (val, put key val s) ∧
  looked (put key val s) = looked s.
Proof.
  unfold get, __getitem__, put, __setitem__. simpl. by rewrite lookup_insert_eq.
Qed.

Lemma keycache_exec_mirrors a s :
  (∀ k val, a ≠ Put k val) →
  (∀ k val, dict s !! k = Some val → val = lookmeth s k) →
  ∀ k val, dict (exec a s) !! k = Some val → val = lookmeth (exec a s) k.
Proof.
  intros Ha Hs k val. rewrite exec_lookmeth.
  destruct a as [key|key|key v|key]; simpl.
  - unfold get, __getitem__. destruct (dict s !! key) eqn:Hkey; [apply Hs|]. simpl.
    destruct (decide (k = key)) as [->|Hne].
    + rewrite lookup_insert_eq. congruence.
    + rewrite lookup_insert_ne by done. apply Hs.
  - unfold __getitem__. destruct (dict s !! key) eqn:Hkey; [apply Hs|]. simpl.
    destruct (decide (k = key)) as [->|Hne].
    + rewrite lookup_insert_eq. congruence.
    + rewrite lookup_insert_ne by done. apply Hs.
  - by destruct (Ha key v).
  - destruct (decide (k = key)) as [->|Hne].
    + by rewrite lookup_delete_eq.
    + rewrite lookup_delete_ne by done. apply Hs.
Qed.

Lemma keycache_run_mirrors l s :
  (∀ k val, Put k val ∉ l) →
  (∀ k val, dict s !! k = Some val → val = lookmeth s k) →
  ∀ k val, dict (run l s) !! k = Some val → val = lookmeth (run l s) k.
Proof.
  revert s. induction l as [|a l IH]; intros s Hl Hs; [done|].
  rewrite run_access_cons. apply IH.
  - intros k val Hin. apply (Hl k val). by right.
  - apply keycache_exec_mirrors; [|done]. intros k val ->. apply (Hl k val). by left.
Qed.

(** As long as nothing is [put], a [KeyCache] answers as its lookup
    does: after any [get], [cache[key]] and [pop] calls, [get(key)]
    returns [lookmeth(key)]. *)
Theorem keycache_get_is_lookmeth f l key :
  (∀ k val, Put k val ∉ l) →
  (get key (run l (__init__ f))).1 = f key.
Proof.
  intros Hl.
  pose proof (keycache_run_mirrors l (__init__ f) Hl) as Hrun.
  assert (lookmeth (run l (__init__ f)) = f) as Hf by apply run_lookmeth.
  rewrite Hf in Hrun. unfold get, __getitem__.
  destruct (dict (run l (__init__ f)) !! key) as [val|] eqn:Hkey; simpl.
  - by apply Hrun.
  - by rewrite Hf.
Qed.
End KeyCacheMore.

(** ** TufoCache and TufoPropCache *)

Section TufoFacts.
Context {K : Type} {eqK : EqDecision K} {cntK : Countable K} {P : Type}.
Import Cache TufoCache.
Implicit Types (c : @core K P) (s : @Cache.state K _ _ (@tufo K P)).

Lemma of_tufo_not_miss (r : option (@tufo K P)) : is_miss (of_tufo r) = false.
Proof. by destruct r. Qed.

Lemma init_empty mt (om : option (K → pyval (@tufo K P))) t s :
  Cache.__init__ mt om t = Some s → cache s = ∅ ∧ lasthit s = ∅.
Proof.
  unfold Cache.__init__.
  set (s0 := mkState om ∅ ∅ None mt false t []).
  destruct mt as [m|]; [|by intros [= <-]].
  rewrite (sweep_unfold s0 m eq_refl).
  assert (hits (now s0 - m) s0 = []) as ->.
  { unfold hits, s0. cbn [lasthit]. by rewrite map_to_list_empty. }
  rewrite pop_each_nil. intros [= <-].
  by destruct (reschedule_maps s0) as [-> ->].
Qed.

Lemma tufo_init c mt t s0 :
  TufoCache.__init__ c mt t = Some s0 →
  onmiss s0 = Some (λ iden, of_tufo (getTufoById c iden)) ∧
  cache s0 = ∅ ∧ lasthit s0 = ∅.
Proof.
  unfold TufoCache.__init__.
  destruct (Cache.__init__ mt None t) as [s|] eqn:Hs; [|done].
  simpl. intros [= <-]. by destruct (init_empty _ _ _ _ Hs) as [? ?].
Qed.






(** [n] threads call [get(iden)] on a new [TufoCache], scheduled in any
    way: the cortex is asked at most once; a thread that has returned
    has returned what the cortex has for [iden] ([None] if it has no
    such tufo), which is then cached; and the run can be completed so
    that all threads return. *)
Theorem tufo_concurrent_gets c mt t s0 iden n sched :
  TufoCache.__init__ c mt t = Some s0 →
  let r := Threads.run iden sched (Threads.start n (Threads.shared_of s0)) in
  Threads.calls (Threads.mem r) ≤ 1 ∧
  (∀ i p val, Threads.threads r !! i = Some p → Threads.returned p = Some val →
              val = of_tufo (getTufoById c iden) ∧
              Threads.cache (Threads.mem r) !! iden = Some val) ∧
  ∃ sched', Threads.finished (Threads.run iden sched' r).
Proof.
  intros (Hon & Hc & _)%tufo_init r.
  set (f := λ iden, of_tufo (getTufoById c iden)).
  assert (Threads.invariant iden f r) as Hr.
  { apply run_keeps_invariant; [apply of_tufo_not_miss|].
    apply start_invariant; [done| |done..]. simpl. by rewrite Hc. }
  split_and!.
  - by eapply invariant_calls.
  - intros i p val Hp Hret.
    destruct (invariant_returned iden f r i p val Hr Hp Hret) as (-> & Hst & _). done.
  - apply (can_finish_within iden f (S (Threads.remaining r)));
      [apply of_tufo_not_miss|lia|done].
Qed.
End TufoFacts.

(** ** The properties above on concrete inputs *)

Section MoreExamples.
Import Example.

Lemma to_int_to_bytes_witness :
  ∃ byts, compat.Py3.to_bytes 258%Z 2%Z = Ok byts ∧
          Z.of_nat (length byts) = 2%Z ∧ compat.Py3.to_int byts = 258%Z.
Proof. apply (to_int_to_bytes 258 2); [lia|]. split; [lia|reflexivity]. Defined.

Lemma ondem_value_is_pinned_witness :
  OnDem.get "foo" (OnDem.run later (OnDem.exec (OnDem.Get "foo") (OnDem.__init__ woot))) =
    Ok (PyObj 1%Z, OnDem.run later (OnDem.exec (OnDem.Get "foo") (OnDem.__init__ woot))) ∧
  OnDem.calls "foo" (OnDem.run later (OnDem.exec (OnDem.Get "foo") (OnDem.__init__ woot))) =
    OnDem.calls "foo" (OnDem.exec (OnDem.Get "foo") (OnDem.__init__ woot)).
Proof.
  apply (ondem_value_is_pinned "foo" (OnDem.__init__ woot)). vm_compute. reflexivity.
Defined.

Lemma ondem_unregistered_raises_witness :
  OnDem.get "bar" (OnDem.run later (OnDem.__init__ woot)) = Raise (OnDem.KeyError "bar") ∧
  OnDem.exec (OnDem.Get "bar") (OnDem.run later (OnDem.__init__ woot)) =
    OnDem.run later (OnDem.__init__ woot).
Proof.
  apply (ondem_unregistered_raises woot later "bar").
  - unfold woot. repeat constructor; simpl; congruence.
  - intros func. unfold later. rewrite !elem_of_cons, elem_of_nil.
    intros [?|[?|[?|[]]]]; congruence.
Defined.
End MoreExamples.
